(** * A shallow embedding of the JavaScript front end of wasm-chip8

    Source: [src/js/components/upload-button.js].  The file holds the
    [chip8-emulator] web component (render loop, canvas painting, program
    upload), the [KEYS_MAP] table, and the [Keyboard] and [Audio] classes the
    Rust/wasm interpreter imports.  The interpreter itself lives in the Rust
    crate; the component only sees it through the [Emulator] object, which is
    kept abstract here (a Section of variables), and the calls made on it are
    logged. *)

From Stdlib Require Import ZArith List String Ascii Bool Lia Arith.
Import ListNotations.
Open Scope Z_scope.

(* ------------------------------------------------------------------ *)
(** ** [KEYS_MAP]: physical keyCode to logical key *)

(** [KEYS_MAP[e.keyCode]]: [Some k] for a listed keyCode, [None] for
    [undefined]. *)
Definition KEYS_MAP (keyCode : Z) : option Z :=
  match keyCode with
  | 49 => Some 1   (* 1 *)
  | 50 => Some 2   (* 2 *)
  | 51 => Some 3   (* 3 *)
  | 81 => Some 4   (* Q *)
  | 87 => Some 5   (* W *)
  | 69 => Some 6   (* E *)
  | 65 => Some 7   (* A *)
  | 83 => Some 8   (* S *)
  | 68 => Some 9   (* D *)
  | 90 => Some 10  (* Z *)
  | 67 => Some 11  (* C *)
  | 52 => Some 12  (* 4 *)
  | 82 => Some 13  (* R *)
  | 70 => Some 14  (* F *)
  | 86 => Some 15  (* V *)
  | _ => None
  end.

(** The keyCodes listed in [KEYS_MAP], in source order. *)
Definition KEYS_MAP_keys : list Z :=
  [49; 50; 51; 81; 87; 69; 65; 83; 68; 90; 67; 52; 82; 70; 86].

(* ------------------------------------------------------------------ *)
(** ** [Keyboard] *)

Module Keyboard.

(** Property keys of the [pressed] object: the logical key (a number,
    turned into its decimal string, which is injective on integers) or
    the string ["undefined"] that [KEYS_MAP[e.keyCode]] gives for a
    keyCode missing from the map. *)
Inductive PropKey := KNum (k : Z) | KUndefined.

Definition PropKey_eqb (a b : PropKey) : bool :=
  match a, b with
  | KNum x, KNum y => Z.eqb x y
  | KUndefined, KUndefined => true
  | _, _ => false
  end.

(** [KEYS_MAP[e.keyCode]] used as a property key. *)
Definition prop_of (v : option Z) : PropKey :=
  match v with Some k => KNum k | None => KUndefined end.

(** The [pressed] object: [None] is an absent property ([undefined]). *)
Definition Pressed := PropKey -> option bool.

Record t := mk { pressed : Pressed }.

(** [pressed[p] = b] *)
Definition set_prop (o : Pressed) (p : PropKey) (b : bool) : Pressed :=
  fun q => if PropKey_eqb q p then Some b else o q.

(** [start_detection]: [this.pressed = {}] (the listeners it adds are
    the DOM routing of [handle_keydown]/[handle_keyup], see [World]). *)
Definition start_detection (_ : t) : t := mk (fun _ => None).

(** [constructor]: binds the handlers and calls [start_detection]. *)
Definition create : t := start_detection (mk (fun _ => None)).

Definition handle_keydown (kb : t) (keyCode : Z) : t :=
  mk (set_prop (pressed kb) (prop_of (KEYS_MAP keyCode)) true).

Definition handle_keyup (kb : t) (keyCode : Z) : t :=
  mk (set_prop (pressed kb) (prop_of (KEYS_MAP keyCode)) false).

(** [Boolean(undefined)] is [false]. *)
Definition is_key_pressed (kb : t) (key : Z) : bool :=
  match pressed kb (KNum key) with Some b => b | None => false end.

(** Key events as the document delivers them. *)
Inductive KeyEvent := KeyDown (keyCode : Z) | KeyUp (keyCode : Z).

Definition handle (kb : t) (e : KeyEvent) : t :=
  match e with
  | KeyDown c => handle_keydown kb c
  | KeyUp c => handle_keyup kb c
  end.

Definition run (kb : t) (es : list KeyEvent) : t := fold_left handle es kb.

Definition option_eqb (a b : option Z) : bool :=
  match a, b with
  | Some x, Some y => Z.eqb x y
  | None, None => true
  | _, _ => false
  end.

(** The state the most recent event mapping to [k] left, if any
    (a reference used to state the key-tracking property). *)
Fixpoint last_state_of (k : Z) (es : list KeyEvent) : option bool :=
  match es with
  | [] => None
  | e :: rest =>
      match last_state_of k rest with
      | Some b => Some b
      | None =>
          match e with
          | KeyDown c => if option_eqb (KEYS_MAP c) (Some k) then Some true else None
          | KeyUp c => if option_eqb (KEYS_MAP c) (Some k) then Some false else None
          end
      end
  end.

End Keyboard.

(* ------------------------------------------------------------------ *)
(** ** [Audio] *)

Module Audio.

(** What the class asks of the [AudioContext] and its oscillators; an
    oscillator is named by the order of its creation. *)
Inductive Effect :=
| CreateOscillator (osc : nat)   (* this.ctx.createOscillator() *)
| SetSine (osc : nat)            (* this.o.type = 'sine' *)
| Connect (osc : nat)            (* this.o.connect(this.ctx.destination) *)
| OscStart (osc : nat)           (* this.o.start() *)
| OscStop (osc : nat).           (* this.o.stop() *)

(** [o] is [this.o] ([None] for [null]); [next_osc] counts the
    oscillators the context has created; [effects] logs the calls. *)
Record t := mk { o : option nat; next_osc : nat; effects : list Effect }.

Definition create : t := mk None 0 [].

(** [Boolean(this.o)]: an oscillator object is truthy, [null] is not. *)
Definition is_active (a : t) : bool :=
  match o a with Some _ => true | None => false end.

Definition start (a : t) : t :=
  if negb (is_active a) then
    let osc := next_osc a in
    mk (Some osc) (S osc)
       (effects a ++ [CreateOscillator osc; SetSine osc; Connect osc; OscStart osc])
  else a.

Definition stop (a : t) : t :=
  if is_active a then
    match o a with
    | Some osc => mk None (next_osc a) (effects a ++ [OscStop osc])
    | None => a
    end
  else a.

Inductive Call := Start | Stop.

Definition call (a : t) (c : Call) : t :=
  match c with Start => start a | Stop => stop a end.

Definition run (a : t) (cs : list Call) : t := fold_left call cs a.

(** Number of oscillators created in an effect log. *)
Definition created (es : list Effect) : nat :=
  List.length (filter (fun e => match e with CreateOscillator _ => true | _ => false end) es).

(** Whether the most recent call of a sequence is [start]. *)
Definition last_is_start (cs : list Call) : bool :=
  match rev cs with Start :: _ => true | _ => false end.

End Audio.

(* ------------------------------------------------------------------ *)
(** ** [parseInt(s, 10)] *)

Module ParseInt.

(** JavaScript white space and line terminators that fit in an ASCII
    string: TAB, LF, VT, FF, CR and SPACE. *)
Definition is_ws (c : ascii) : bool :=
  let n := nat_of_ascii c in
  (Nat.eqb n 9 || Nat.eqb n 10 || Nat.eqb n 11 || Nat.eqb n 12
   || Nat.eqb n 13 || Nat.eqb n 32)%bool.

Fixpoint trim_start (s : string) : string :=
  match s with
  | String c rest => if is_ws c then trim_start rest else s
  | EmptyString => EmptyString
  end.

Definition digit_of (c : ascii) : option Z :=
  let n := nat_of_ascii c in
  if (Nat.leb 48 n && Nat.leb n 57)%bool then Some (Z.of_nat n - 48) else None.

(** The longest prefix of decimal digits, folded into its value;
    [None] when there is no digit. *)
Fixpoint digits (acc : option Z) (s : string) : option Z :=
  match s with
  | String c rest =>
      match digit_of c with
      | Some d => digits (Some (match acc with Some a => a | None => 0 end * 10 + d)) rest
      | None => acc
      end
  | EmptyString => acc
  end.

(** [parseInt(s, 10)] on the string [s], [None] standing for [NaN].  The
    result is the mathematical integer; rounding to a double is not
    modelled (it keeps the sign and keeps a nonzero value nonzero), and
    [-0] is [0], both being falsy. *)
Definition parseInt10 (s : string) : option Z :=
  let s := trim_start s in
  match s with
  | String c rest =>
      if Ascii.eqb c "-"%char then option_map Z.opp (digits None rest)
      else if Ascii.eqb c "+"%char then digits None rest
      else digits None s
  | EmptyString => None
  end.

(** [ToString] of what [getAttribute] returns: [null] gives ["null"]. *)
Definition to_string (v : option string) : string :=
  match v with Some s => s | None => "null"%string end.

(** A parse result used by [||]: [NaN] and [0] are falsy. *)
Definition truthy (v : option Z) : bool :=
  match v with Some z => negb (Z.eqb z 0) | None => false end.

End ParseInt.

(** [get ticksPerFrame]:
    [parseInt(this.getAttribute('ticks-per-frame'), 10) || 10]. *)
Definition ticksPerFrame (attr : option string) : Z :=
  let v := ParseInt.parseInt10 (ParseInt.to_string attr) in
  if ParseInt.truthy v then match v with Some z => z | None => 10 end else 10.

(* ------------------------------------------------------------------ *)
(** ** The [chip8-emulator] component *)

(** Calls on the wasm [Emulator] object.  [CallSetKey] and
    [CallDecrementTimers] are the [set_key] and [decrement_timers]
    operations of the interpreter's interface; the log shows whether the
    front end ever issues them. *)
Inductive EmuCall :=
| CallTick
| CallGfx
| CallReset
| CallLoad (rom : list Z)
| CallSetKey (index : Z) (pressed : bool)
| CallDecrementTimers.

(** Calls on the canvas 2D context. *)
Inductive CanvasOp :=
| BeginPath
| SetFillStyle (color : string)
| FillRect (x y w h : nat)
| ClearRect (x y w h : nat)
| Stroke.

Definition WIDTH : nat := 64.
Definition HEIGHT : nat := 32.
Definition SCALE : nat := 10.
Definition EMPTY_COLOR : string := "#0A84A0".
Definition FILL_COLOR : string := "#ffffff".

Definition getIndex (row col : nat) : nat := (row * WIDTH + col)%nat.

Definition canvas_height : nat := ((SCALE + 1) * HEIGHT + 1)%nat.
Definition canvas_width : nat := ((SCALE + 1) * WIDTH + 1)%nat.

(** [new Uint8Array(buffer, offset, length)]: a window on the buffer's
    bytes; [None] is the [RangeError] thrown when it does not fit. *)
Definition uint8_view (buf : list Z) (offset len : nat) : option (list Z) :=
  if Nat.leb (offset + len) (List.length buf)
  then Some (firstn len (skipn offset buf)) else None.

(** [new Uint8Array(buffer)]: the whole buffer. *)
Definition uint8_array (buf : list Z) : option (list Z) :=
  uint8_view buf 0 (List.length buf).

(** [gfx[i]] for an index inside the array. *)
Definition gfx_at (gfx : list Z) (i : nat) : Z := nth i gfx 0.

(** JavaScript truthiness of a byte. *)
Definition truthy (b : Z) : bool := negb (Z.eqb b 0).

(** The rectangle painted for the cell at [row], [col]. *)
Definition cell_rect (row col : nat) : CanvasOp :=
  FillRect (col * (SCALE + 1) + 1) (row * (SCALE + 1) + 1) SCALE SCALE.

(** [renderCellsByCond(gfx, fillStyle, conditionCallback)]: the nested
    [for] loops over [row < HEIGHT] and [col < WIDTH]. *)
Definition renderCellsByCond (fillStyle : string) (cond : nat -> nat -> bool)
  : list CanvasOp :=
  SetFillStyle fillStyle ::
  flat_map (fun row =>
    flat_map (fun col => if cond row col then [] else [cell_rect row col])
      (seq 0 WIDTH)) (seq 0 HEIGHT).

Definition renderFilledCells (gfx : list Z) : list CanvasOp :=
  renderCellsByCond FILL_COLOR (fun row col => negb (truthy (gfx_at gfx (getIndex row col)))).

Definition renderEmptyCells (gfx : list Z) : list CanvasOp :=
  renderCellsByCond EMPTY_COLOR (fun row col => truthy (gfx_at gfx (getIndex row col))).

(** The canvas calls of [renderGfx] once the view [gfx] is built. *)
Definition render_ops (gfx : list Z) : list CanvasOp :=
  [BeginPath] ++ renderFilledCells gfx ++ renderEmptyCells gfx ++ [Stroke].

(** What a sequence of canvas calls paints: each [fillRect] with the fill
    style in force (the canvas default is black). *)
Fixpoint paint_from (style : string) (ops : list CanvasOp) : list (string * CanvasOp) :=
  match ops with
  | [] => []
  | SetFillStyle c :: rest => paint_from c rest
  | (FillRect _ _ _ _ as r) :: rest => (style, r) :: paint_from style rest
  | _ :: rest => paint_from style rest
  end.

Definition painted (ops : list CanvasOp) : list (string * CanvasOp) :=
  paint_from "#000000" ops.

Definition CanvasOp_eqb (a b : CanvasOp) : bool :=
  match a, b with
  | FillRect x y w h, FillRect x' y' w' h' =>
      (Nat.eqb x x' && Nat.eqb y y' && Nat.eqb w w' && Nat.eqb h h')%bool
  | _, _ => false
  end.

(** The paints that cover the cell at [row], [col]. *)
Definition paints_of_cell (ops : list CanvasOp) (row col : nat) : list (string * CanvasOp) :=
  filter (fun p => CanvasOp_eqb (snd p) (cell_rect row col)) (painted ops).

Section Component.

(** The wasm [Emulator] object, opaque to the front end: its state, the
    effect of [tick], [reset] and [load] on it, the pointer [gfx()]
    returns, and the wasm linear memory ([memory.buffer]). *)
Variable Emu : Type.
Variable emu_tick : Emu -> Emu.
Variable emu_reset : Emu -> Emu.
Variable emu_load : list Z -> Emu -> Emu.
Variable emu_gfx : Emu -> nat.
Variable emu_memory : Emu -> list Z.

(** The component's fields, its two attributes, the pending
    [requestAnimationFrame] callbacks (all of them [this.loop]) and the
    pending [FileReader] reads (the bytes of each file being read). *)
Record El := mkEl {
  started_attr : option string;
  tpf_attr : option string;
  programLoaded : bool;
  animationId : option nat;
  emulator : Emu;
  canvas : list CanvasOp;
  calls : list EmuCall;
  raf_next : nat;
  raf_pending : list nat;
  reads : list (list Z)
}.

(** [this._emulator.m()] applied to the emulator and logged. *)
Definition emu_call (c : EmuCall) (f : Emu -> Emu) (el : El) : El :=
  {| started_attr := started_attr el; tpf_attr := tpf_attr el;
     programLoaded := programLoaded el; animationId := animationId el;
     emulator := f (emulator el); canvas := canvas el;
     calls := calls el ++ [c]; raf_next := raf_next el;
     raf_pending := raf_pending el; reads := reads el |}.

Definition draw (ops : list CanvasOp) (el : El) : El :=
  {| started_attr := started_attr el; tpf_attr := tpf_attr el;
     programLoaded := programLoaded el; animationId := animationId el;
     emulator := emulator el; canvas := canvas el ++ ops;
     calls := calls el; raf_next := raf_next el;
     raf_pending := raf_pending el; reads := reads el |}.

(** [get started]: [this.getAttribute('started') === 'true']. *)
Definition started (el : El) : bool :=
  match started_attr el with Some s => String.eqb s "true" | None => false end.

(** [set started(value)]: [setAttribute] stores [String(value)]. *)
Definition set_started (b : bool) (el : El) : El :=
  {| started_attr := Some (if b then "true" else "false")%string;
     tpf_attr := tpf_attr el;
     programLoaded := programLoaded el; animationId := animationId el;
     emulator := emulator el; canvas := canvas el; calls := calls el;
     raf_next := raf_next el; raf_pending := raf_pending el; reads := reads el |}.

Definition set_animationId (a : option nat) (el : El) : El :=
  {| started_attr := started_attr el; tpf_attr := tpf_attr el;
     programLoaded := programLoaded el; animationId := a;
     emulator := emulator el; canvas := canvas el; calls := calls el;
     raf_next := raf_next el; raf_pending := raf_pending el; reads := reads el |}.

(** [requestAnimationFrame(this.loop)]: a fresh positive handle. *)
Definition requestAnimationFrame (el : El) : El * nat :=
  let h := raf_next el in
  ({| started_attr := started_attr el; tpf_attr := tpf_attr el;
      programLoaded := programLoaded el; animationId := animationId el;
      emulator := emulator el; canvas := canvas el; calls := calls el;
      raf_next := S h; raf_pending := raf_pending el ++ [h];
      reads := reads el |}, h).

(** [cancelAnimationFrame(handle)]; [null] converts to the handle [0],
    which no request returns. *)
Definition cancelAnimationFrame (a : option nat) (el : El) : El :=
  let h := match a with Some h => h | None => 0%nat end in
  {| started_attr := started_attr el; tpf_attr := tpf_attr el;
     programLoaded := programLoaded el; animationId := animationId el;
     emulator := emulator el; canvas := canvas el; calls := calls el;
     raf_next := raf_next el;
     raf_pending := filter (fun x => negb (Nat.eqb x h)) (raf_pending el);
     reads := reads el |}.

Definition tick (el : El) : El := emu_call CallTick emu_tick el.

(** [renderGfx()]; [None] when [new Uint8Array] throws. *)
Definition renderGfx (el : El) : option El :=
  let ptr := emu_gfx (emulator el) in
  let el := emu_call CallGfx (fun e => e) el in
  match uint8_view (emu_memory (emulator el)) ptr (WIDTH * HEIGHT) with
  | Some gfx => Some (draw (render_ops gfx) el)
  | None => None
  end.

(** [for (let i = 0; i < this.ticksPerFrame; i++) this._emulator.tick()]:
    the getter is read again before every iteration; [fuel] bounds the
    number of iterations of the embedding. *)
Fixpoint for_ticks (fuel : nat) (i : Z) (el : El) : option El :=
  match fuel with
  | O => None
  | S f =>
      if Z.ltb i (ticksPerFrame (tpf_attr el))
      then for_ticks f (i + 1) (tick el)
      else Some el
  end.

Definition loop (fuel : nat) (el : El) : option El :=
  match for_ticks fuel 0 el with
  | Some el1 =>
      match renderGfx el1 with
      | Some el2 =>
          let (el3, h) := requestAnimationFrame el2 in
          Some (set_animationId (Some h) el3)
      | None => None
      end
  | None => None
  end.

Definition start (fuel : nat) (el : El) : option El :=
  if (negb (started el) || programLoaded el)%bool then
    match loop fuel el with
    | Some el1 => Some (set_started true el1)
    | None => None
    end
  else Some el.

Definition pause (el : El) : El :=
  if started el then
    set_started false (set_animationId None (cancelAnimationFrame (animationId el) el))
  else el.

Definition toggle (fuel : nat) (el : El) : option El :=
  if started el then Some (pause el) else start fuel el.

(** [uploadProgram(evt)]: [file] is the bytes of [evt.detail]; the
    [FileReader] read is left pending. *)
Definition uploadProgram (file : list Z) (el : El) : El :=
  let el := emu_call CallReset emu_reset el in
  let el := draw [ClearRect 0 0 canvas_width canvas_height] el in
  let el := pause el in
  {| started_attr := started_attr el; tpf_attr := tpf_attr el;
     programLoaded := programLoaded el; animationId := animationId el;
     emulator := emulator el; canvas := canvas el; calls := calls el;
     raf_next := raf_next el; raf_pending := raf_pending el;
     reads := reads el ++ [file] |}.

(** [reader.onload]: [e.target.result] is the file's bytes. *)
Definition reader_onload (result : list Z) (el : El) : El :=
  match uint8_array result with
  | Some program =>
      let el := emu_call (CallLoad program) (emu_load program) el in
      {| started_attr := started_attr el; tpf_attr := tpf_attr el;
         programLoaded := true; animationId := animationId el;
         emulator := emulator el; canvas := canvas el; calls := calls el;
         raf_next := raf_next el; raf_pending := raf_pending el;
         reads := reads el |}
  | None => el
  end.

(** The [i]-th pending read completes. *)
Definition complete_read (i : nat) (el : El) : option El :=
  match nth_error (reads el) i with
  | Some bytes =>
      let el' :=
        {| started_attr := started_attr el; tpf_attr := tpf_attr el;
           programLoaded := programLoaded el; animationId := animationId el;
           emulator := emulator el; canvas := canvas el; calls := calls el;
           raf_next := raf_next el; raf_pending := raf_pending el;
           reads := firstn i (reads el) ++ skipn (S i) (reads el) |} in
      Some (reader_onload bytes el')
  | None => None
  end.

End Component.

Section Page.

Variable Emu : Type.
Variable emu_tick : Emu -> Emu.
Variable emu_reset : Emu -> Emu.
Variable emu_load : list Z -> Emu -> Emu.
Variable emu_gfx : Emu -> nat.
Variable emu_memory : Emu -> list Z.

(** The page: the component and the [Keyboard] instance. *)
Record World := mkWorld { el : El Emu; kb : Keyboard.t }.

(** The events the page's listeners receive: document key events
    (listened to by [Keyboard.start_detection]), a click on the start
    button ([toggle]), a [file-selected] event ([uploadProgram]), the
    completion of a pending read, and an animation frame running the
    pending [requestAnimationFrame] callbacks. *)
Inductive DomEvent :=
| DomKeyDown (keyCode : Z)
| DomKeyUp (keyCode : Z)
| DomStartClick
| DomFileSelected (file : list Z)
| DomReadDone (i : nat)
| DomAnimationFrame.

Definition run_loop (fuel : nat) (e : option (El Emu)) (_ : nat) : option (El Emu) :=
  match e with
  | Some e => loop Emu emu_tick emu_gfx emu_memory fuel e
  | None => None
  end.

Definition animation_frame (fuel : nat) (e : El Emu) : option (El Emu) :=
  let pending := raf_pending Emu e in
  let e0 :=
    {| started_attr := started_attr Emu e; tpf_attr := tpf_attr Emu e;
       programLoaded := programLoaded Emu e; animationId := animationId Emu e;
       emulator := emulator Emu e; canvas := canvas Emu e; calls := calls Emu e;
       raf_next := raf_next Emu e; raf_pending := []; reads := reads Emu e |} in
  fold_left (run_loop fuel) pending (Some e0).

Definition dispatch (fuel : nat) (w : World) (ev : DomEvent) : option World :=
  match ev with
  | DomKeyDown c => Some (mkWorld (el w) (Keyboard.handle_keydown (kb w) c))
  | DomKeyUp c => Some (mkWorld (el w) (Keyboard.handle_keyup (kb w) c))
  | DomStartClick =>
      option_map (fun e => mkWorld e (kb w))
        (toggle Emu emu_tick emu_gfx emu_memory fuel (el w))
  | DomFileSelected f =>
      Some (mkWorld (uploadProgram Emu emu_reset f (el w)) (kb w))
  | DomReadDone i =>
      option_map (fun e => mkWorld e (kb w)) (complete_read Emu emu_load i (el w))
  | DomAnimationFrame =>
      option_map (fun e => mkWorld e (kb w)) (animation_frame fuel (el w))
  end.

End Page.

(* ------------------------------------------------------------------ *)
(** ** The framebuffer behind [gfx()] *)

Module Framebuffer.

(** Modelled from the spec: the Rust interpreter's framebuffer, which is
    not part of this source tree.  §3: a 64×32 grid stored one byte per
    pixel (0 or 1), index = row × 64 + col, cleared by [CLS]/[reset]/
    [load] and otherwise written only by [DRW]; §4.2: [DRW] XORs each
    set bit of the [n] sprite bytes onto the grid at column
    [(Vx + bit) mod 64], row [(Vy + row_offset) mod 32], and reports a
    collision when a set pixel is cleared. *)
Definition cleared : list Z := repeat 0 (WIDTH * HEIGHT).

(** [l[i] ^= 1] inside the list. *)
Fixpoint flip_at (i : nat) (l : list Z) : list Z :=
  match l, i with
  | [], _ => []
  | x :: rest, O => Z.lxor x 1 :: rest
  | x :: rest, S j => x :: flip_at j rest
  end.

(** One sprite bit at column [x], row [y] (already offset). *)
Definition xor_pixel (x y : nat) (st : list Z * bool) : list Z * bool :=
  let (fb, collision) := st in
  let idx := getIndex (y mod HEIGHT) (x mod WIDTH) in
  ((flip_at idx fb), (collision || Z.eqb (nth idx fb 0) 1)%bool).

(** One sprite row: the eight bits of [b], most significant first. *)
Definition draw_row (x y : nat) (b : Z) (st : list Z * bool) : list Z * bool :=
  fold_left (fun st k =>
    if Z.testbit b (Z.of_nat (7 - k)) then xor_pixel (x + k) y st else st)
    (seq 0 8) st.

(** [DRW Vx, Vy, n] with the sprite bytes [sprite] read from memory. *)
Definition drw (x y : nat) (sprite : list Z) (fb : list Z) : list Z * bool :=
  fst (fold_left (fun '(st, j) b => (draw_row x (y + j) b st, S j))
         sprite ((fb, false), O)).

(** Framebuffers the interpreter can hold. *)
Inductive reachable : list Z -> Prop :=
| reach_cleared : reachable cleared
| reach_drw fb x y sprite :
    reachable fb -> reachable (fst (drw x y sprite fb)).

End Framebuffer.

(* ------------------------------------------------------------------ *)
(** ** [String(value)] for the [ticksPerFrame] setter *)

Definition digit_char (d : Z) : ascii := ascii_of_nat (Z.to_nat d + 48).

(** The decimal digits of [n >= 0] put in front of [acc]; [fuel] bounds the
    number of digits. *)
Fixpoint dec_aux (fuel : nat) (n : Z) (acc : string) : string :=
  match fuel with
  | O => acc
  | S f =>
      let acc' := String (digit_char (n mod 10)) acc in
      if Z.ltb n 10 then acc' else dec_aux f (n / 10) acc'
  end.

Definition dec_string (n : Z) : string :=
  dec_aux (S (Z.to_nat (Z.log2 n))) n EmptyString.

(** [String(value)] for an integer Number; JavaScript writes it in plain
    decimal notation while its magnitude is below 10^21. *)
Definition js_int_string (n : Z) : string :=
  if Z.ltb n 0 then String "-"%char (dec_string (- n)) else dec_string n.

(* ------------------------------------------------------------------ *)
(** ** Event listeners of the two custom elements *)

(** Objects the elements listen on. *)
Inductive Target :=
| StartBtn        (* this.$startBtn of chip8-emulator *)
| UploadBtnEl     (* this.$uploadBtn of chip8-emulator *)
| UploadHost      (* the upload-button element itself *)
| FileInput.      (* this.$file of upload-button *)

Inductive Handler := HToggle | HUploadProgram | HHandleClick | HHandleFileSelected.

Record Listener := mkListener { l_target : Target; l_type : string; l_handler : Handler }.

Definition Target_eqb (a b : Target) : bool :=
  match a, b with
  | StartBtn, StartBtn | UploadBtnEl, UploadBtnEl
  | UploadHost, UploadHost | FileInput, FileInput => true
  | _, _ => false
  end.

Definition Handler_eqb (a b : Handler) : bool :=
  match a, b with
  | HToggle, HToggle | HUploadProgram, HUploadProgram
  | HHandleClick, HHandleClick | HHandleFileSelected, HHandleFileSelected => true
  | _, _ => false
  end.

Definition listener_eqb (a b : Listener) : bool :=
  (Target_eqb (l_target a) (l_target b) && String.eqb (l_type a) (l_type b)
   && Handler_eqb (l_handler a) (l_handler b))%bool.

(** [addEventListener]: a listener already registered (same target, type
    and bound function) is not added again. *)
Definition addEventListener (ls : list Listener) (x : Listener) : list Listener :=
  if existsb (listener_eqb x) ls then ls else ls ++ [x].

Definition removeEventListener (ls : list Listener) (x : Listener) : list Listener :=
  filter (fun y => negb (listener_eqb x y)) ls.

Definition toggle_listener : Listener := mkListener StartBtn "click" HToggle.
Definition upload_listener : Listener := mkListener UploadBtnEl "file-selected" HUploadProgram.
Definition click_listener : Listener := mkListener UploadHost "click" HHandleClick.
Definition change_listener : Listener := mkListener FileInput "change" HHandleFileSelected.

(** [connectedCallback] / [disconnectedCallback] of chip8-emulator. *)
Definition chip8_connected (ls : list Listener) : list Listener :=
  addEventListener (addEventListener ls toggle_listener) upload_listener.
Definition chip8_disconnected (ls : list Listener) : list Listener :=
  removeEventListener (removeEventListener ls toggle_listener) upload_listener.

(** [connectedCallback] / [disconnectedCallback] of upload-button. *)
Definition upload_connected (ls : list Listener) : list Listener :=
  addEventListener (addEventListener ls click_listener) change_listener.
Definition upload_disconnected (ls : list Listener) : list Listener :=
  removeEventListener (removeEventListener ls click_listener) change_listener.

(** The handlers an event of type [ty] on [t] runs, in order. *)
Definition handlers_for (ls : list Listener) (t : Target) (ty : string) : list Handler :=
  map l_handler (filter (fun l => Target_eqb (l_target l) t && String.eqb (l_type l) ty)%bool ls).

(* ------------------------------------------------------------------ *)
(** ** Oscillators sounding after an [Audio] effect log *)

(** [o.start()] makes an oscillator sound, [o.stop()] silences it. *)
Definition osc_step (s : list nat) (e : Audio.Effect) : list nat :=
  match e with
  | Audio.OscStart x => s ++ [x]
  | Audio.OscStop x => filter (fun y => negb (Nat.eqb y x)) s
  | _ => s
  end.

Definition sounding (es : list Audio.Effect) : list nat := fold_left osc_step es [].

(* ------------------------------------------------------------------ *)
(** ** Setter and successive frames *)

Section Driving.

Variable Emu : Type.
Variable emu_tick : Emu -> Emu.
Variable emu_reset : Emu -> Emu.
Variable emu_load : list Z -> Emu -> Emu.
Variable emu_gfx : Emu -> nat.
Variable emu_memory : Emu -> list Z.

(** [set ticksPerFrame(value)]: [setAttribute] stores [String(value)]. *)
Definition set_ticksPerFrame (value : Z) (el : El Emu) : El Emu :=
  {| started_attr := started_attr Emu el; tpf_attr := Some (js_int_string value);
     programLoaded := programLoaded Emu el; animationId := animationId Emu el;
     emulator := emulator Emu el; canvas := canvas Emu el; calls := calls Emu el;
     raf_next := raf_next Emu el; raf_pending := raf_pending Emu el;
     reads := reads Emu el |}.

(** [k] successive animation frames of the page. *)
Fixpoint frames (fuel : nat) (k : nat) (w : World Emu) : option (World Emu) :=
  match k with
  | O => Some w
  | S k' =>
      match dispatch Emu emu_tick emu_reset emu_load emu_gfx emu_memory fuel w DomAnimationFrame with
      | Some w' => frames fuel k' w'
      | None => None
      end
  end.

(** The scheduling state [start]/[pause]/[loop] maintain: while started,
    exactly one frame callback is pending and [_animationId] holds it;
    while paused, none is pending. *)
Definition loop_state_ok (el : El Emu) : Prop :=
  (started Emu el = true /\
   exists h, raf_pending Emu el = [h] /\ animationId Emu el = Some h) \/
  (started Emu el = false /\ raf_pending Emu el = []).

End Driving.

(* ------------------------------------------------------------------ *)
(** ** A concrete emulator for evaluation *)

(** The smallest emulator the front end can drive: no state, its
    framebuffer at offset 0 of a 2048-byte blank memory. *)
Definition unit_tick (_ : unit) : unit := tt.
Definition unit_reset (_ : unit) : unit := tt.
Definition unit_load (_ : list Z) (_ : unit) : unit := tt.
Definition unit_gfx (_ : unit) : nat := 0%nat.
Definition unit_memory (_ : unit) : list Z := repeat 0 (WIDTH * HEIGHT).

(** A freshly constructed component with the given [ticks-per-frame]
    attribute. *)
Definition unit_el (tpf : option string) : El unit :=
  mkEl unit None tpf false None tt [] [] 1%nat [] [].

Definition unit_world : World unit := mkWorld unit (unit_el None) Keyboard.create.

(** The interpreter operations the front end is built to call:
    everything but [set_key] and [decrement_timers]. *)
Definition front_call (c : EmuCall) : bool :=
  match c with CallSetKey _ _ | CallDecrementTimers => false | _ => true end.

(** Number of [tick] calls in a log. *)
Definition tick_count (cs : list EmuCall) : nat :=
  List.length (filter (fun c => match c with CallTick => true | _ => false end) cs).

(* ================================================================== *)
(** * Properties *)

Example tpf_absent : ticksPerFrame None = 10. Proof. reflexivity. Qed.
Example tpf_zero : ticksPerFrame (Some "0"%string) = 10. Proof. reflexivity. Qed.
Example tpf_text : ticksPerFrame (Some "fast"%string) = 10. Proof. reflexivity. Qed.
Example tpf_num : ticksPerFrame (Some "  +25x"%string) = 25. Proof. reflexivity. Qed.
Example tpf_neg : ticksPerFrame (Some "-5"%string) = -5. Proof. reflexivity. Qed.

(** ** The key map *)

Lemma KEYS_MAP_in_table (kc v : Z) :
  KEYS_MAP kc = Some v -> In kc KEYS_MAP_keys.
Proof.
  unfold KEYS_MAP, KEYS_MAP_keys.
  destruct kc as [|p|p]; try discriminate.
  do 7 (try destruct p as [p|p|]); intro H; try discriminate H; simpl; tauto.
Qed.

Lemma KEYS_MAP_keys_images :
  map KEYS_MAP KEYS_MAP_keys =
  map Some [1; 2; 3; 4; 5; 6; 7; 8; 9; 10; 11; 12; 13; 14; 15].
Proof. reflexivity. Qed.

(** C4 (code_bug): no keyCode of the key map translates to the logical
    key 0x0; the map covers only 0x1–0xF. *)
Theorem KEYS_MAP_never_key_0 (kc : Z) : KEYS_MAP kc <> Some 0.
Proof.
  intro H. pose proof (KEYS_MAP_in_table kc 0 H) as Hin.
  unfold KEYS_MAP_keys in Hin; simpl in Hin.
  repeat (destruct Hin as [<- | Hin]; [discriminate H |]); contradiction.
Qed.

(** The X key (keyCode 88), where the 4×4 layout puts key 0, is unmapped. *)
Lemma KEYS_MAP_X : KEYS_MAP 88 = None.
Proof. reflexivity. Qed.

(** ** The keyboard adapter *)

Module KeyboardFacts.
Import Keyboard.

Lemma last_state_of_snoc (k : Z) (es : list KeyEvent) (e : KeyEvent) :
  last_state_of k (es ++ [e]) =
  match e with
  | KeyDown c => if option_eqb (KEYS_MAP c) (Some k) then Some true else last_state_of k es
  | KeyUp c => if option_eqb (KEYS_MAP c) (Some k) then Some false else last_state_of k es
  end.
Proof.
  induction es as [|e0 es IH]; simpl.
  - destruct e as [c|c]; destruct (option_eqb (KEYS_MAP c) (Some k)); reflexivity.
  - rewrite IH. destruct e as [c|c]; destruct (option_eqb (KEYS_MAP c) (Some k)); reflexivity.
Qed.

Lemma prop_of_eqb (v : option Z) (k : Z) :
  PropKey_eqb (KNum k) (prop_of v) = option_eqb v (Some k).
Proof.
  destruct v as [x|]; simpl; [apply Z.eqb_sym | reflexivity].
Qed.

Lemma is_key_pressed_handle (kb : t) (e : KeyEvent) (k : Z) :
  is_key_pressed (handle kb e) k =
  match e with
  | KeyDown c => if option_eqb (KEYS_MAP c) (Some k) then true else is_key_pressed kb k
  | KeyUp c => if option_eqb (KEYS_MAP c) (Some k) then false else is_key_pressed kb k
  end.
Proof.
  destruct e as [c|c]; unfold is_key_pressed, handle, handle_keydown, handle_keyup,
    set_prop; cbn -[prop_of PropKey_eqb KEYS_MAP option_eqb]; rewrite prop_of_eqb;
    destruct (option_eqb (KEYS_MAP c) (Some k)); reflexivity.
Qed.

Lemma is_key_pressed_create (k : Z) : is_key_pressed create k = false.
Proof. reflexivity. Qed.

End KeyboardFacts.

(** C9: after [start_detection] (the state the constructor leaves), a
    logical key reads as pressed exactly when the most recent keydown/keyup
    whose keyCode maps to it was a keydown (so it reads false until such a
    keydown), and an event with an unmapped keyCode changes no logical
    key's reported state. *)
Theorem keyboard_tracks_last_mapped_event :
  (forall (kb0 : Keyboard.t) (es : list Keyboard.KeyEvent) (k : Z),
     Keyboard.is_key_pressed (Keyboard.run (Keyboard.start_detection kb0) es) k =
     match Keyboard.last_state_of k es with Some b => b | None => false end) /\
  (forall (kb : Keyboard.t) (c k : Z), KEYS_MAP c = None ->
     Keyboard.is_key_pressed (Keyboard.handle_keydown kb c) k = Keyboard.is_key_pressed kb k /\
     Keyboard.is_key_pressed (Keyboard.handle_keyup kb c) k = Keyboard.is_key_pressed kb k).
Proof.
  split.
  - intros kb0 es k. induction es as [|e es IH] using rev_ind.
    + reflexivity.
    + unfold Keyboard.run in *. rewrite fold_left_app. simpl.
      rewrite KeyboardFacts.is_key_pressed_handle, KeyboardFacts.last_state_of_snoc, IH.
      destruct e as [c|c]; destruct (Keyboard.option_eqb (KEYS_MAP c) (Some k)); reflexivity.
  - intros kb c k Hc.
    pose proof (KeyboardFacts.is_key_pressed_handle kb (Keyboard.KeyDown c) k) as H1.
    pose proof (KeyboardFacts.is_key_pressed_handle kb (Keyboard.KeyUp c) k) as H2.
    simpl in H1, H2. rewrite Hc in H1, H2. simpl in H1, H2. auto.
Qed.

Lemma keyboard_tracks_last_mapped_event_witness :
  KEYS_MAP 88 = None /\
  Keyboard.is_key_pressed
    (Keyboard.run (Keyboard.start_detection Keyboard.create)
       [Keyboard.KeyDown 87; Keyboard.KeyDown 88; Keyboard.KeyUp 88]) 5 = true.
Proof.
  split; [reflexivity |].
  destruct keyboard_tracks_last_mapped_event as [H1 H2].
  rewrite H1. reflexivity.
Defined.

(** ** The audio adapter *)

Module AudioFacts.
Import Audio.

Lemma is_active_start (a : t) : is_active (start a) = true.
Proof.
  unfold start. destruct (is_active a) eqn:E; simpl; [exact E | reflexivity].
Qed.

Lemma is_active_stop (a : t) : is_active (stop a) = false.
Proof.
  unfold stop. destruct (is_active a) eqn:E; [| exact E].
  unfold is_active in *. destruct (o a); [reflexivity | discriminate].
Qed.

Lemma last_is_start_snoc (cs : list Call) (c : Call) :
  last_is_start (cs ++ [c]) = match c with Start => true | Stop => false end.
Proof. unfold last_is_start. rewrite rev_app_distr. destruct c; reflexivity. Qed.

End AudioFacts.

(** C10: after any sequence of [start]/[stop] calls from a fresh [Audio],
    [is_active()] is true exactly when the last call was [start]; [start]
    on an active tone and [stop] on a silent one change nothing (no second
    oscillator is created, no call is made), so both are idempotent. *)
Theorem audio_start_stop_idempotent :
  (forall cs : list Audio.Call,
     Audio.is_active (Audio.run Audio.create cs) = Audio.last_is_start cs) /\
  (forall a : Audio.t, Audio.is_active a = true -> Audio.start a = a) /\
  (forall a : Audio.t, Audio.is_active a = false -> Audio.stop a = a) /\
  (forall a : Audio.t, Audio.start (Audio.start a) = Audio.start a) /\
  (forall a : Audio.t, Audio.stop (Audio.stop a) = Audio.stop a).
Proof.
  assert (Hstart : forall a, Audio.is_active a = true -> Audio.start a = a).
  { intros a H. unfold Audio.start. rewrite H. reflexivity. }
  assert (Hstop : forall a, Audio.is_active a = false -> Audio.stop a = a).
  { intros a H. unfold Audio.stop. rewrite H. reflexivity. }
  split; [| split; [exact Hstart | split; [exact Hstop | split]]].
  - intro cs. induction cs as [|c cs IH] using rev_ind; [reflexivity |].
    unfold Audio.run in *. rewrite fold_left_app, AudioFacts.last_is_start_snoc.
    destruct c; simpl; [apply AudioFacts.is_active_start | apply AudioFacts.is_active_stop].
  - intro a. apply Hstart, AudioFacts.is_active_start.
  - intro a. apply Hstop, AudioFacts.is_active_stop.
Qed.

Lemma audio_start_stop_idempotent_witness :
  let a := Audio.start Audio.create in
  Audio.is_active a = true /\ Audio.start a = a /\
  Audio.stop (Audio.stop a) = Audio.stop a /\
  Audio.created (Audio.effects (Audio.start a)) = 1%nat.
Proof.
  destruct audio_start_stop_idempotent as (_ & Hs & _ & _ & Hss).
  cbv zeta. split; [reflexivity | split; [apply Hs; reflexivity | split]].
  - apply Hss.
  - rewrite Hs by reflexivity. reflexivity.
Defined.

(** ** The [ticksPerFrame] getter *)

(** C8 (counterexample): the attribute ["-5"] makes the getter return
    [-5], which is not positive. *)
Lemma ticksPerFrame_negative_attribute :
  ticksPerFrame (Some "-5"%string) = -5 /\ ~ (0 < ticksPerFrame (Some "-5"%string)).
Proof. split; [reflexivity | cbv; discriminate]. Qed.

(** C8 (amended): for every attribute value, the getter returns the parsed
    base-10 integer when the parse gives a nonzero number, and 10 otherwise
    (absent, non-numeric, ["0"]); the result is never 0, and it is positive
    exactly when the parse gives no negative number. *)
Theorem ticksPerFrame_parse_or_10 (attr : option string) :
  ticksPerFrame attr =
    match ParseInt.parseInt10 (ParseInt.to_string attr) with
    | Some z => if Z.eqb z 0 then 10 else z
    | None => 10
    end /\
  ticksPerFrame attr <> 0 /\
  (0 < ticksPerFrame attr <->
   forall z, ParseInt.parseInt10 (ParseInt.to_string attr) = Some z -> 0 <= z).
Proof.
  unfold ticksPerFrame, ParseInt.truthy.
  destruct (ParseInt.parseInt10 (ParseInt.to_string attr)) as [z|]; simpl.
  - destruct (Z.eqb_spec z 0) as [Hz|Hz]; simpl.
    + split; [reflexivity | split; [discriminate |]].
      split; [intros _ z' Hz'; injection Hz'; lia | lia].
    + split; [reflexivity | split; [exact Hz |]].
      split; [intros H z' Hz'; injection Hz'; lia |].
      intro H. specialize (H z eq_refl). lia.
  - split; [reflexivity | split; [discriminate |]].
    split; [intros _ z' Hz'; discriminate | lia].
Qed.

(** ** The frame loop *)

Section LoopFacts.

Variable Emu : Type.
Variable emu_tick : Emu -> Emu.
Variable emu_gfx : Emu -> nat.
Variable emu_memory : Emu -> list Z.

Let El := El Emu.
Let tickE := tick Emu emu_tick.
Let for_ticksE := for_ticks Emu emu_tick.
Let renderGfxE := renderGfx Emu emu_gfx emu_memory.
Let loopE := loop Emu emu_tick emu_gfx emu_memory.

Lemma tick_fields (n : nat) (el : El) :
  tpf_attr Emu (Nat.iter n tickE el) = tpf_attr Emu el /\
  calls Emu (Nat.iter n tickE el) = calls Emu el ++ repeat CallTick n /\
  canvas Emu (Nat.iter n tickE el) = canvas Emu el /\
  emulator Emu (Nat.iter n tickE el) = Nat.iter n emu_tick (emulator Emu el) /\
  raf_next Emu (Nat.iter n tickE el) = raf_next Emu el /\
  raf_pending Emu (Nat.iter n tickE el) = raf_pending Emu el.
Proof.
  induction n as [|n IH]; simpl.
  - rewrite app_nil_r. repeat split.
  - destruct IH as (H1 & H2 & H3 & H4 & H5 & H6).
    set (x := Nat.iter n tickE el) in *.
    unfold tickE, tick, emu_call; simpl.
    rewrite H1, H2, H3, H4, H5, H6, <- app_assoc. simpl.
    repeat split; try reflexivity.
    f_equal. change [CallTick] with (repeat CallTick 1).
    rewrite <- repeat_app, Nat.add_comm. reflexivity.
Qed.

(** Whatever the fuel, a finished [for] loopE has ticked
    [max(ticksPerFrame, 0)] times. *)
Lemma for_ticks_result (fuel : nat) (i : Z) (el el' : El) :
  for_ticksE fuel i el = Some el' ->
  el' = Nat.iter (Z.to_nat (ticksPerFrame (tpf_attr Emu el) - i)) tickE el.
Proof.
  revert i el. induction fuel as [|f IH]; intros i el H; [discriminate |].
  unfold for_ticksE in H; simpl in H.
  destruct (Z.ltb_spec i (ticksPerFrame (tpf_attr Emu el))) as [Hlt|Hge].
  - apply IH in H. rewrite H.
    replace (Z.to_nat (ticksPerFrame (tpf_attr Emu el) - i))
      with (S (Z.to_nat (ticksPerFrame (tpf_attr Emu el) - (i + 1)))) by lia.
    rewrite Nat.iter_succ_r. reflexivity.
  - injection H as <-.
    replace (Z.to_nat (ticksPerFrame (tpf_attr Emu el) - i)) with O by lia.
    reflexivity.
Qed.

Lemma for_ticks_enough (fuel : nat) (i : Z) (el : El) :
  (Z.to_nat (ticksPerFrame (tpf_attr Emu el) - i) < fuel)%nat ->
  exists el', for_ticksE fuel i el = Some el'.
Proof.
  revert i el. induction fuel as [|f IH]; intros i el H; [lia |].
  unfold for_ticksE; simpl.
  destruct (Z.ltb_spec i (ticksPerFrame (tpf_attr Emu el))) as [Hlt|Hge].
  - apply IH. unfold tick, emu_call; simpl. lia.
  - eauto.
Qed.

Lemma renderGfx_result (el el' : El) :
  renderGfxE el = Some el' ->
  exists gfx,
    uint8_view (emu_memory (emulator Emu el)) (emu_gfx (emulator Emu el)) (WIDTH * HEIGHT)
      = Some gfx /\
    el' = draw Emu (render_ops gfx) (emu_call Emu CallGfx (fun e => e) el).
Proof.
  unfold renderGfxE, renderGfx. simpl.
  destruct (uint8_view _ _ _) as [gfx|]; intro H; [| discriminate].
  injection H as <-. eauto.
Qed.

Lemma renderGfx_in_bounds (el : El) :
  (emu_gfx (emulator Emu el) + WIDTH * HEIGHT <= List.length (emu_memory (emulator Emu el)))%nat ->
  exists el', renderGfxE el = Some el'.
Proof.
  intro H. unfold renderGfxE, renderGfx, uint8_view.
  cbn [emulator emu_call]. rewrite (proj2 (Nat.leb_le _ _) H). eauto.
Qed.

(** One run of [loopE]: its effect on the logged calls, the canvas, the
    emulator and the animation-frame queue. *)
Lemma loop_result (fuel : nat) (el el' : El) :
  loopE fuel el = Some el' ->
  let n := Z.to_nat (ticksPerFrame (tpf_attr Emu el)) in
  let e := Nat.iter n emu_tick (emulator Emu el) in
  calls Emu el' = calls Emu el ++ repeat CallTick n ++ [CallGfx] /\
  emulator Emu el' = e /\
  raf_pending Emu el' = raf_pending Emu el ++ [raf_next Emu el] /\
  animationId Emu el' = Some (raf_next Emu el) /\
  exists gfx,
    uint8_view (emu_memory e) (emu_gfx e) (WIDTH * HEIGHT) = Some gfx /\
    canvas Emu el' = canvas Emu el ++ render_ops gfx.
Proof.
  unfold loopE, loop.
  destruct (for_ticks Emu emu_tick fuel 0 el) as [el1|] eqn:E1; [| discriminate].
  apply for_ticks_result in E1. rewrite Z.sub_0_r in E1.
  destruct (renderGfx Emu emu_gfx emu_memory el1) as [el2|] eqn:E2; [| discriminate].
  apply renderGfx_result in E2. destruct E2 as (gfx & Hv & ->).
  intro H. injection H as <-. cbv zeta.
  pose proof (tick_fields (Z.to_nat (ticksPerFrame (tpf_attr Emu el))) el)
    as (H1 & H2 & H3 & H4 & H5 & H6).
  rewrite <- E1 in H1, H2, H3, H4, H5, H6. subst el1. simpl.
  rewrite H2, H3, H4, H5, H6, <- !app_assoc.
  repeat split; try reflexivity.
  exists gfx. rewrite <- H4. split; [exact Hv | reflexivity].
Qed.

Lemma loop_enough (fuel : nat) (el : El) :
  (Z.to_nat (ticksPerFrame (tpf_attr Emu el)) < fuel)%nat ->
  (forall e, emu_gfx e + WIDTH * HEIGHT <= List.length (emu_memory e))%nat ->
  exists el', loopE fuel el = Some el'.
Proof.
  intros Hf Hb.
  destruct (for_ticks_enough fuel 0 el) as [el1 E1]; [rewrite Z.sub_0_r; exact Hf |].
  destruct (renderGfx_in_bounds el1 (Hb _)) as [el2 E2].
  unfold loopE, loop. unfold for_ticksE in E1. rewrite E1.
  unfold renderGfxE in E2. rewrite E2. simpl. eauto.
Qed.

End LoopFacts.

Section FrameClaims.

Variable Emu : Type.
Variable emu_tick : Emu -> Emu.
Variable emu_gfx : Emu -> nat.
Variable emu_memory : Emu -> list Z.

(** C1 (amended): a frame of the loop, given enough fuel and a [gfx()]
    pointer whose 2048-byte window fits in the wasm memory, calls [tick]
    exactly [max(ticksPerFrame, 0)] times, then [gfx()] once, and paints
    the window read after the last tick. *)
Theorem loop_ticks_then_one_gfx (fuel : nat) (el : El Emu) :
  (Z.to_nat (ticksPerFrame (tpf_attr Emu el)) < fuel)%nat ->
  (forall e, emu_gfx e + WIDTH * HEIGHT <= List.length (emu_memory e))%nat ->
  exists el',
    loop Emu emu_tick emu_gfx emu_memory fuel el = Some el' /\
    calls Emu el' =
      calls Emu el ++ repeat CallTick (Z.to_nat (ticksPerFrame (tpf_attr Emu el)))
                   ++ [CallGfx] /\
    let e := Nat.iter (Z.to_nat (ticksPerFrame (tpf_attr Emu el))) emu_tick (emulator Emu el) in
    exists gfx,
      uint8_view (emu_memory e) (emu_gfx e) (WIDTH * HEIGHT) = Some gfx /\
      canvas Emu el' = canvas Emu el ++ render_ops gfx.
Proof.
  intros Hf Hb.
  destruct (loop_enough Emu emu_tick emu_gfx emu_memory fuel el Hf Hb) as [el' E].
  exists el'. split; [exact E |].
  destruct (loop_result Emu emu_tick emu_gfx emu_memory fuel el el' E)
    as (Hc & _ & _ & _ & Hg).
  split; [exact Hc | exact Hg].
Qed.

End FrameClaims.

Lemma loop_ticks_then_one_gfx_witness :
  exists el',
    loop unit unit_tick unit_gfx unit_memory 11 (unit_el None) = Some el' /\
    calls unit el' = repeat CallTick 10 ++ [CallGfx].
Proof.
  destruct (loop_ticks_then_one_gfx unit unit_tick unit_gfx unit_memory 11 (unit_el None))
    as (el' & E & Hc & _).
  - vm_compute. lia.
  - intros []. vm_compute. lia.
  - exists el'. split; [exact E | exact Hc].
Defined.

(** C1 (counterexample): with the attribute ["-5"], [ticksPerFrame] is
    [-5] and a frame calls [tick] zero times, not [ticksPerFrame] times. *)
Lemma loop_negative_ticksPerFrame :
  match loop unit unit_tick unit_gfx unit_memory 1 (unit_el (Some "-5"%string)) with
  | Some el' =>
      calls unit el' = [CallGfx] /\
      Z.of_nat (tick_count (calls unit el')) <> ticksPerFrame (Some "-5"%string)
  | None => False
  end.
Proof. vm_compute. split; [reflexivity | discriminate]. Qed.

(** C2 (counterexample): a frame of the loop on a fresh component calls no
    [decrement_timers]. *)
Lemma loop_frame_no_timer_call :
  match loop unit unit_tick unit_gfx unit_memory 11 (unit_el None) with
  | Some el' => ~ In CallDecrementTimers (calls unit el')
  | None => False
  end.
Proof. vm_compute. intuition discriminate. Qed.

(** ** What the page asks of the interpreter *)

Section PageFacts.

Variable Emu : Type.
Variable emu_tick : Emu -> Emu.
Variable emu_reset : Emu -> Emu.
Variable emu_load : list Z -> Emu -> Emu.
Variable emu_gfx : Emu -> nat.
Variable emu_memory : Emu -> list Z.

(** [el'] is [el] with some calls of the front end's kind appended. *)
Definition extends_calls (el el' : El Emu) : Prop :=
  exists new, calls Emu el' = calls Emu el ++ new /\ Forall (fun c => front_call c = true) new.

Lemma extends_refl (el el' : El Emu) :
  calls Emu el' = calls Emu el -> extends_calls el el'.
Proof. intro H. exists []. rewrite app_nil_r. auto. Qed.

Lemma extends_trans (a b c : El Emu) :
  extends_calls a b -> extends_calls b c -> extends_calls a c.
Proof.
  intros (n1 & H1 & F1) (n2 & H2 & F2). exists (n1 ++ n2).
  rewrite H2, H1, app_assoc. split; [reflexivity | apply Forall_app; auto].
Qed.

Lemma extends_emu_call (c : EmuCall) f (el : El Emu) :
  front_call c = true -> extends_calls el (emu_call Emu c f el).
Proof. intro H. exists [c]. split; [reflexivity | auto]. Qed.

Lemma extends_loop (fuel : nat) (el el' : El Emu) :
  loop Emu emu_tick emu_gfx emu_memory fuel el = Some el' -> extends_calls el el'.
Proof.
  intro E. destruct (loop_result Emu emu_tick emu_gfx emu_memory fuel el el' E) as (Hc & _).
  eexists. split; [exact Hc |].
  apply Forall_app. split; [| auto].
  apply Forall_forall. intros x Hx. apply repeat_spec in Hx. subst. reflexivity.
Qed.

Lemma extends_pause (el : El Emu) : extends_calls el (pause Emu el).
Proof. apply extends_refl. unfold pause. destruct (started Emu el); reflexivity. Qed.

Lemma extends_toggle (fuel : nat) (el el' : El Emu) :
  toggle Emu emu_tick emu_gfx emu_memory fuel el = Some el' -> extends_calls el el'.
Proof.
  unfold toggle, start. destruct (started Emu el).
  - intro H. injection H as <-. apply extends_pause.
  - simpl. destruct (loop Emu emu_tick emu_gfx emu_memory fuel el) as [el1|] eqn:E;
      [| discriminate].
    intro H. injection H as <-. apply extends_loop in E.
    eapply extends_trans; [exact E | apply extends_refl; reflexivity].
Qed.

Lemma extends_upload (f : list Z) (el : El Emu) :
  extends_calls el (uploadProgram Emu emu_reset f el).
Proof.
  unfold uploadProgram.
  set (e1 := emu_call Emu CallReset emu_reset el).
  set (e2 := draw Emu [ClearRect 0 0 canvas_width canvas_height] e1).
  apply extends_trans with e1; [apply extends_emu_call; reflexivity |].
  apply extends_trans with e2; [apply extends_refl; reflexivity |].
  apply extends_trans with (pause Emu e2); [apply extends_pause |].
  apply extends_refl; reflexivity.
Qed.

Lemma extends_complete_read (i : nat) (el el' : El Emu) :
  complete_read Emu emu_load i el = Some el' -> extends_calls el el'.
Proof.
  unfold complete_read. destruct (nth_error (reads Emu el) i) as [bytes|]; [| discriminate].
  intro H. injection H as <-. unfold reader_onload.
  destruct (uint8_array bytes) as [p|].
  - exists [CallLoad p]. split; [reflexivity | auto].
  - apply extends_refl; reflexivity.
Qed.

Lemma extends_animation_frame (fuel : nat) (el el' : El Emu) :
  animation_frame Emu emu_tick emu_gfx emu_memory fuel el = Some el' -> extends_calls el el'.
Proof.
  unfold animation_frame.
  assert (G : forall l (acc : El Emu),
    fold_left (run_loop Emu emu_tick emu_gfx emu_memory fuel) l (Some acc) = Some el' ->
    extends_calls acc el').
  { induction l as [|h l IH]; intros acc H; simpl in H.
    - injection H as <-. apply extends_refl; reflexivity.
    - destruct (loop Emu emu_tick emu_gfx emu_memory fuel acc) as [a1|] eqn:E.
      + apply extends_trans with a1; [exact (extends_loop fuel _ _ E) | apply IH; exact H].
      + exfalso. clear -H. induction l as [|h' l IH]; simpl in H; [discriminate | auto]. }
  intro H. apply G in H. eapply extends_trans; [| exact H]. apply extends_refl; reflexivity.
Qed.

(** Every DOM event the page handles leaves the emulator-call log
    extended by front-end calls only. *)
Lemma dispatch_extends (fuel : nat) (w w' : World Emu) (ev : DomEvent) :
  dispatch Emu emu_tick emu_reset emu_load emu_gfx emu_memory fuel w ev = Some w' ->
  extends_calls (el Emu w) (el Emu w').
Proof.
  destruct ev as [c|c| |f|i|]; simpl; intro H.
  - injection H as <-. apply extends_refl; reflexivity.
  - injection H as <-. apply extends_refl; reflexivity.
  - destruct (toggle _ _ _ _ _ _) as [e|] eqn:E; [| discriminate].
    injection H as <-. simpl. eapply extends_toggle; exact E.
  - injection H as <-. apply extends_upload.
  - destruct (complete_read _ _ _ _) as [e|] eqn:E; [| discriminate].
    injection H as <-. simpl. eapply extends_complete_read; exact E.
  - destruct (animation_frame _ _ _ _ _ _) as [e|] eqn:E; [| discriminate].
    injection H as <-. simpl. eapply extends_animation_frame; exact E.
Qed.

(** Only the key events touch the [Keyboard] instance. *)
Lemma dispatch_keeps_keyboard (fuel : nat) (w w' : World Emu) (ev : DomEvent) :
  dispatch Emu emu_tick emu_reset emu_load emu_gfx emu_memory fuel w ev = Some w' ->
  (forall c, ev <> DomKeyDown c /\ ev <> DomKeyUp c) ->
  kb Emu w' = kb Emu w.
Proof.
  intros H Hne. destruct ev as [c|c| |f|i|]; simpl in H.
  - destruct (Hne c) as [Hd _]. contradiction.
  - destruct (Hne c) as [_ Hu]. contradiction.
  - destruct (toggle _ _ _ _ _ _); [injection H as <-; reflexivity | discriminate].
  - injection H as <-. reflexivity.
  - destruct (complete_read _ _ _ _); [injection H as <-; reflexivity | discriminate].
  - destruct (animation_frame _ _ _ _ _ _); [injection H as <-; reflexivity | discriminate].
Qed.

End PageFacts.

Lemma front_calls_exclude (new : list EmuCall) :
  Forall (fun c => front_call c = true) new ->
  ~ In CallDecrementTimers new /\ (forall k b, ~ In (CallSetKey k b) new).
Proof.
  intro F. rewrite Forall_forall in F. split.
  - intro Hin. specialize (F _ Hin). discriminate F.
  - intros k b Hin. specialize (F _ Hin). discriminate F.
Qed.

Section DriverClaims.

Variable Emu : Type.
Variable emu_tick : Emu -> Emu.
Variable emu_reset : Emu -> Emu.
Variable emu_load : list Z -> Emu -> Emu.
Variable emu_gfx : Emu -> nat.
Variable emu_memory : Emu -> list Z.

Let dispatch := dispatch Emu emu_tick emu_reset emu_load emu_gfx emu_memory.

(** C2 (amended): the front end never decrements the timers: no event
    the page handles (animation frame, start/pause click, program upload,
    read completion, key event) adds a [decrement_timers] call, and a
    frame of the loop calls only [tick], [max(ticksPerFrame, 0)] times,
    then [gfx()] once. *)
Theorem driver_never_decrements_timers :
  (forall fuel (w w' : World Emu) ev,
     dispatch fuel w ev = Some w' ->
     exists new, calls Emu (el Emu w') = calls Emu (el Emu w) ++ new /\
                 ~ In CallDecrementTimers new) /\
  (forall fuel (e e' : El Emu),
     loop Emu emu_tick emu_gfx emu_memory fuel e = Some e' ->
     calls Emu e' =
       calls Emu e ++ repeat CallTick (Z.to_nat (ticksPerFrame (tpf_attr Emu e))) ++ [CallGfx]).
Proof.
  split.
  - intros fuel w w' ev H.
    destruct (dispatch_extends Emu emu_tick emu_reset emu_load emu_gfx emu_memory fuel w w' ev H)
      as (new & Hc & F).
    exists new. split; [exact Hc | apply front_calls_exclude; exact F].
  - intros fuel e e' H.
    exact (proj1 (loop_result Emu emu_tick emu_gfx emu_memory fuel e e' H)).
Qed.

(** C3 (amended): key presses and releases are handled by the
    [Keyboard] adapter alone.  A keydown/keyup sets the mapped logical
    key's entry of the adapter's own [pressed] table to true/false and
    leaves the component and the interpreter untouched; no event ever
    calls [set_key] (the interpreter reads the table through
    [is_key_pressed]); and no other event changes the table. *)
Theorem keyboard_adapter_owns_key_state :
  (forall fuel (w : World Emu) c,
     dispatch fuel w (DomKeyDown c) =
       Some (mkWorld Emu (el Emu w) (Keyboard.handle_keydown (kb Emu w) c)) /\
     dispatch fuel w (DomKeyUp c) =
       Some (mkWorld Emu (el Emu w) (Keyboard.handle_keyup (kb Emu w) c))) /\
  (forall (k0 : Keyboard.t) c k, KEYS_MAP c = Some k ->
     Keyboard.is_key_pressed (Keyboard.handle_keydown k0 c) k = true /\
     Keyboard.is_key_pressed (Keyboard.handle_keyup k0 c) k = false) /\
  (forall fuel (w w' : World Emu) ev,
     dispatch fuel w ev = Some w' ->
     (forall c, ev <> DomKeyDown c /\ ev <> DomKeyUp c) -> kb Emu w' = kb Emu w) /\
  (forall fuel (w w' : World Emu) ev,
     dispatch fuel w ev = Some w' ->
     exists new, calls Emu (el Emu w') = calls Emu (el Emu w) ++ new /\
                 forall k b, ~ In (CallSetKey k b) new).
Proof.
  split; [| split; [| split]].
  - intros fuel w c. split; reflexivity.
  - intros k0 c k Hc.
    pose proof (KeyboardFacts.is_key_pressed_handle k0 (Keyboard.KeyDown c) k) as H1.
    pose proof (KeyboardFacts.is_key_pressed_handle k0 (Keyboard.KeyUp c) k) as H2.
    simpl in H1, H2. rewrite Hc in H1, H2. simpl in H1, H2.
    rewrite Z.eqb_refl in H1, H2. auto.
  - intros fuel w w' ev H Hne.
    exact (dispatch_keeps_keyboard Emu emu_tick emu_reset emu_load emu_gfx emu_memory
             fuel w w' ev H Hne).
  - intros fuel w w' ev H.
    destruct (dispatch_extends Emu emu_tick emu_reset emu_load emu_gfx emu_memory fuel w w' ev H)
      as (new & Hc & F).
    exists new. split; [exact Hc | apply front_calls_exclude; exact F].
Qed.

End DriverClaims.

Lemma driver_never_decrements_timers_witness :
  match dispatch unit unit_tick unit_reset unit_load unit_gfx unit_memory 11
          unit_world DomStartClick with
  | Some w' => exists new, calls unit (el unit w') = calls unit (el unit unit_world) ++ new /\
                           ~ In CallDecrementTimers new
  | None => False
  end.
Proof.
  destruct (driver_never_decrements_timers unit unit_tick unit_reset unit_load unit_gfx unit_memory)
    as [H _].
  destruct (dispatch unit unit_tick unit_reset unit_load unit_gfx unit_memory 11
              unit_world DomStartClick) as [w'|] eqn:E.
  - exact (H 11%nat unit_world w' DomStartClick E).
  - vm_compute in E. discriminate E.
Defined.

Lemma keyboard_adapter_owns_key_state_witness :
  Keyboard.is_key_pressed (Keyboard.handle_keydown Keyboard.create 87) 5 = true /\
  match dispatch unit unit_tick unit_reset unit_load unit_gfx unit_memory 11
          unit_world (DomFileSelected [0; 224]) with
  | Some w' => kb unit w' = kb unit unit_world
  | None => False
  end.
Proof.
  destruct (keyboard_adapter_owns_key_state unit unit_tick unit_reset unit_load unit_gfx unit_memory)
    as (_ & Hmap & Hkb & _).
  split; [exact (proj1 (Hmap Keyboard.create 87 5 eq_refl)) |].
  destruct (dispatch unit unit_tick unit_reset unit_load unit_gfx unit_memory 11
              unit_world (DomFileSelected [0; 224])) as [w'|] eqn:E.
  - apply (Hkb 11%nat unit_world w' _ E). intro c. split; discriminate.
  - discriminate E.
Defined.

(** C3 (counterexample): pressing the key with keyCode 49 (logical key 1)
    records it in the adapter's table and makes no [set_key] call on the
    interpreter. *)
Lemma keydown_makes_no_set_key_call :
  match dispatch unit unit_tick unit_reset unit_load unit_gfx unit_memory 1
          unit_world (DomKeyDown 49) with
  | Some w' =>
      calls unit (el unit w') = [] /\ ~ In (CallSetKey 1 true) (calls unit (el unit w')) /\
      Keyboard.is_key_pressed (kb unit w') 1 = true
  | None => False
  end.
Proof. vm_compute. split; [reflexivity | split; [intro H; exact H | reflexivity]]. Qed.

(** ** Painting the framebuffer *)

Module RenderFacts.

(** The rectangles of the nested loops of [renderCellsByCond]. *)
Definition grid (cond : nat -> nat -> bool) : list CanvasOp :=
  flat_map (fun row =>
    flat_map (fun col => if cond row col then [] else [cell_rect row col])
      (seq 0 WIDTH)) (seq 0 HEIGHT).

Lemma renderCellsByCond_grid (s : string) cond :
  renderCellsByCond s cond = SetFillStyle s :: grid cond.
Proof. reflexivity. Qed.

Lemma cell_rect_eqb (r c r' c' : nat) :
  CanvasOp_eqb (cell_rect r c) (cell_rect r' c') = true <-> r = r' /\ c = c'.
Proof.
  unfold cell_rect, CanvasOp_eqb. rewrite !Bool.andb_true_iff, !Nat.eqb_eq.
  split; [intros (((Hx & Hy) & _) & _); split; unfold SCALE in *; lia |].
  intros [-> ->]. repeat split.
Qed.

Lemma filter_flat_map {A B} (p : B -> bool) (f : A -> list B) (l : list A) :
  filter p (flat_map f l) = flat_map (fun x => filter p (f x)) l.
Proof.
  induction l as [|x l IH]; simpl; [reflexivity |].
  rewrite filter_app, IH. reflexivity.
Qed.

Lemma flat_map_all_nil {A B} (g : A -> list B) (l : list A) :
  (forall x, In x l -> g x = []) -> flat_map g l = [].
Proof.
  induction l as [|x l IH]; intro H; simpl; [reflexivity |].
  rewrite H, IH; [reflexivity | | left; reflexivity].
  intros y Hy. apply H. right. exact Hy.
Qed.

Lemma flat_map_single {A B} (g : A -> list B) (l : list A) (k : A) :
  NoDup l -> In k l -> (forall x, In x l -> x <> k -> g x = []) ->
  flat_map g l = g k.
Proof.
  induction l as [|x l IH]; intros Hnd Hin Hz; [destruct Hin |].
  inversion Hnd as [|? ? Hx Hnd']; subst. simpl.
  destruct Hin as [<- | Hin].
  - rewrite flat_map_all_nil; [apply app_nil_r |].
    intros y Hy. apply Hz; [right; exact Hy | intros ->; contradiction].
  - rewrite Hz; [| left; reflexivity | intros ->; contradiction].
    apply IH; auto. intros z Hzl Hzk. apply Hz; [right; exact Hzl | exact Hzk].
Qed.

Lemma grid_filter (cond : nat -> nat -> bool) (row col : nat) :
  (row < HEIGHT)%nat -> (col < WIDTH)%nat ->
  filter (fun x => CanvasOp_eqb x (cell_rect row col)) (grid cond) =
  if cond row col then [] else [cell_rect row col].
Proof.
  intros Hr Hc. unfold grid. rewrite filter_flat_map.
  rewrite (flat_map_single _ _ row (seq_NoDup _ _)); [| apply in_seq; lia |].
  - rewrite filter_flat_map.
    rewrite (flat_map_single _ _ col (seq_NoDup _ _)); [| apply in_seq; lia |].
    + destruct (cond row col); [reflexivity |]. cbn [filter].
      replace (CanvasOp_eqb (cell_rect row col) (cell_rect row col)) with true;
        [reflexivity | symmetry; apply cell_rect_eqb; auto].
    + intros c' _ Hne. destruct (cond row c'); [reflexivity |]. cbn [filter].
      destruct (CanvasOp_eqb (cell_rect row c') (cell_rect row col)) eqn:E; [| reflexivity].
      apply cell_rect_eqb in E. destruct E. contradiction.
  - intros r' _ Hne. rewrite filter_flat_map.
    apply flat_map_all_nil. intros c' _.
    destruct (cond r' c'); [reflexivity |]. cbn [filter].
    destruct (CanvasOp_eqb (cell_rect r' c') (cell_rect row col)) eqn:E; [| reflexivity].
    apply cell_rect_eqb in E. destruct E. contradiction.
Qed.

Lemma grid_cells (cond : nat -> nat -> bool) (x : CanvasOp) :
  In x (grid cond) -> exists r c, x = cell_rect r c.
Proof.
  unfold grid. rewrite in_flat_map. intros (r & _ & Hx).
  rewrite in_flat_map in Hx. destruct Hx as (c & _ & Hx).
  destruct (cond r c); [destruct Hx | destruct Hx as [<- | []]]. eauto.
Qed.

Lemma paint_from_cells (s : string) (l rest : list CanvasOp) :
  (forall x, In x l -> exists r c, x = cell_rect r c) ->
  paint_from s (l ++ rest) = map (fun x => (s, x)) l ++ paint_from s rest.
Proof.
  induction l as [|x l IH]; intro Hl; [reflexivity |].
  destruct (Hl x (or_introl eq_refl)) as (r & c & ->). simpl.
  f_equal. apply IH. intros y Hy. apply Hl. simpl. auto.
Qed.

Lemma painted_render_ops (gfx : list Z) :
  painted (render_ops gfx) =
  map (fun x => (FILL_COLOR, x))
      (grid (fun row col => negb (truthy (gfx_at gfx (getIndex row col))))) ++
  map (fun x => (EMPTY_COLOR, x))
      (grid (fun row col => truthy (gfx_at gfx (getIndex row col)))).
Proof.
  unfold painted, render_ops, renderFilledCells, renderEmptyCells.
  rewrite !renderCellsByCond_grid. simpl.
  rewrite paint_from_cells by apply grid_cells. simpl.
  rewrite paint_from_cells by apply grid_cells. simpl.
  rewrite app_nil_r. reflexivity.
Qed.

Lemma filter_map_pair (s : string) (rect : CanvasOp) (l : list CanvasOp) :
  filter (fun p => CanvasOp_eqb (snd p) rect) (map (fun x => (s, x)) l) =
  map (fun x => (s, x)) (filter (fun x => CanvasOp_eqb x rect) l).
Proof.
  induction l as [|x l IH]; simpl; [reflexivity |].
  destruct (CanvasOp_eqb x rect); simpl; rewrite IH; reflexivity.
Qed.

Lemma flat_map_length_sum {A B} (F G : A -> list B) (l : list A) (m : nat) :
  (forall x, In x l -> List.length (F x) + List.length (G x) = m)%nat ->
  (List.length (flat_map F l) + List.length (flat_map G l) = m * List.length l)%nat.
Proof.
  induction l as [|x l IH]; intro H; simpl; [lia |].
  rewrite !length_app. pose proof (H x (or_introl eq_refl)) as Hx.
  rewrite <- Nat.add_assoc, (Nat.add_comm (List.length (flat_map F l))), !Nat.add_assoc.
  rewrite <- (Nat.add_assoc _ (List.length (flat_map G l))), (Nat.add_comm (List.length (flat_map G l))).
  rewrite <- Nat.add_assoc, IH by (intros y Hy; apply H; right; exact Hy).
  lia.
Qed.

End RenderFacts.

Lemma painted_render_ops_length (gfx : list Z) :
  List.length (painted (render_ops gfx)) = (WIDTH * HEIGHT)%nat.
Proof.
  rewrite RenderFacts.painted_render_ops, length_app, !length_map.
  unfold RenderFacts.grid.
  rewrite (RenderFacts.flat_map_length_sum _ _ _ WIDTH).
  - rewrite length_seq. reflexivity.
  - intros row _. rewrite (RenderFacts.flat_map_length_sum _ _ _ 1).
    + rewrite length_seq. lia.
    + intros col _. destruct (truthy (gfx_at gfx (getIndex row col))); reflexivity.
Qed.

Section RenderClaims.

Variable Emu : Type.
Variable emu_gfx : Emu -> nat.
Variable emu_memory : Emu -> list Z.

(** C5: a render builds the 2048-byte view, leaves the emulator and so
    the wasm memory holding the grid unchanged, and paints 2048
    rectangles: for each of the 64×32 cells exactly one, in the fill
    color when its byte is nonzero and in the empty color when it is
    zero. *)
Theorem renderGfx_paints_every_cell_once (el el' : El Emu) :
  renderGfx Emu emu_gfx emu_memory el = Some el' ->
  emulator Emu el' = emulator Emu el /\
  exists gfx,
    uint8_view (emu_memory (emulator Emu el)) (emu_gfx (emulator Emu el)) (WIDTH * HEIGHT)
      = Some gfx /\
    canvas Emu el' = canvas Emu el ++ render_ops gfx /\
    List.length (painted (render_ops gfx)) = (WIDTH * HEIGHT)%nat /\
    forall row col, (row < HEIGHT)%nat -> (col < WIDTH)%nat ->
      paints_of_cell (render_ops gfx) row col =
        [(if truthy (gfx_at gfx (getIndex row col)) then FILL_COLOR else EMPTY_COLOR,
          cell_rect row col)].
Proof.
  unfold renderGfx. cbn [emulator emu_call].
  destruct (uint8_view _ _ _) as [gfx|] eqn:E; intro H; [| discriminate].
  injection H as <-. split; [reflexivity |].
  exists gfx. split; [reflexivity | split; [reflexivity | split]].
  - apply painted_render_ops_length.
  - intros row col Hr Hc. unfold paints_of_cell.
    rewrite RenderFacts.painted_render_ops, filter_app, !RenderFacts.filter_map_pair,
      !RenderFacts.grid_filter by assumption.
    destruct (truthy (gfx_at gfx (getIndex row col))); reflexivity.
Qed.

End RenderClaims.

Lemma renderGfx_paints_every_cell_once_witness :
  match renderGfx unit unit_gfx unit_memory (unit_el None) with
  | Some el' =>
      emulator unit el' = tt /\
      paints_of_cell (canvas unit el') 3 5 = [(EMPTY_COLOR, cell_rect 3 5)]
  | None => False
  end.
Proof.
  destruct (renderGfx unit unit_gfx unit_memory (unit_el None)) as [el'|] eqn:E.
  - destruct (renderGfx_paints_every_cell_once unit unit_gfx unit_memory _ _ E)
      as (He & gfx & Hv & Hc & _ & Hp).
    split; [destruct (emulator unit el'); reflexivity |].
    rewrite Hc. simpl canvas. rewrite app_nil_l, Hp by (vm_compute; lia).
    vm_compute in Hv. injection Hv as <-. reflexivity.
  - discriminate E.
Defined.

(** ** The framebuffer view *)

Module FramebufferFacts.
Import Framebuffer.

Definition bit (b : Z) : Prop := b = 0 \/ b = 1.

(** A well-formed grid: 2048 cells, each 0 or 1. *)
Definition wf (fb : list Z) : Prop :=
  List.length fb = (WIDTH * HEIGHT)%nat /\ Forall bit fb.

Lemma fold_left_invariant {A B} (P : A -> Prop) (f : A -> B -> A) (l : list B) (a : A) :
  P a -> (forall a b, P a -> P (f a b)) -> P (fold_left f l a).
Proof.
  revert a. induction l as [|b l IH]; intros a Ha Hf; simpl; [exact Ha |].
  apply IH; auto.
Qed.

Lemma flip_at_wf (i : nat) (fb : list Z) :
  List.length (flip_at i fb) = List.length fb /\ (Forall bit fb -> Forall bit (flip_at i fb)).
Proof.
  revert i. induction fb as [|x fb IH]; intro i; destruct i as [|i]; simpl;
    [auto | auto | |].
  - split; [reflexivity |]. intro F. inversion F as [|? ? Hx Hfb]; subst.
    constructor; [| exact Hfb]. destruct Hx as [-> | ->]; [right | left]; reflexivity.
  - destruct (IH i) as [Hl Hb]. split; [rewrite Hl; reflexivity |].
    intro F. inversion F; subst. constructor; auto.
Qed.

Lemma xor_pixel_wf (x y : nat) (st : list Z * bool) :
  wf (fst st) -> wf (fst (xor_pixel x y st)).
Proof.
  destruct st as [fb c]. unfold xor_pixel, wf. cbn [fst]. intros [Hl Hb].
  destruct (flip_at_wf (getIndex (y mod HEIGHT) (x mod WIDTH)) fb) as [Hl' Hb'].
  rewrite Hl'. auto.
Qed.

Lemma draw_row_wf (x y : nat) (b : Z) (st : list Z * bool) :
  wf (fst st) -> wf (fst (draw_row x y b st)).
Proof.
  intro H. unfold draw_row.
  apply (fold_left_invariant (fun st => wf (fst st))); [exact H |].
  intros st' k Hst. destruct (Z.testbit b (Z.of_nat (7 - k))); [apply xor_pixel_wf |]; exact Hst.
Qed.

Lemma drw_wf (x y : nat) (sprite fb : list Z) :
  wf fb -> wf (fst (drw x y sprite fb)).
Proof.
  intro H. unfold drw.
  apply (fold_left_invariant (fun p : (list Z * bool) * nat => wf (fst (fst p)))); [exact H |].
  intros [st j] b Hst. simpl in *. apply draw_row_wf. exact Hst.
Qed.

Lemma reachable_wf (fb : list Z) : reachable fb -> wf fb.
Proof.
  induction 1 as [| fb x y sprite _ IH].
  - split; [apply repeat_length |]. apply Forall_forall.
    intros b Hb. apply repeat_spec in Hb. left. exact Hb.
  - apply drw_wf. exact IH.
Qed.

End FramebufferFacts.

(** C6: the view the renderer builds over an interpreter framebuffer is
    exactly 2048 bytes, each 0 or 1, and [getIndex] lays the 64×32 grid out
    row-major: cell (row, col) is at index row × 64 + col, inside the view,
    and distinct cells have distinct indices. *)
Theorem framebuffer_view_layout (fb mem : list Z) (ptr : nat) :
  Framebuffer.reachable fb ->
  firstn (WIDTH * HEIGHT) (skipn ptr mem) = fb ->
  uint8_view mem ptr (WIDTH * HEIGHT) = Some fb /\
  List.length fb = 2048%nat /\
  Forall (fun b => b = 0 \/ b = 1) fb /\
  forall row col, (row < HEIGHT)%nat -> (col < WIDTH)%nat ->
    getIndex row col = (row * 64 + col)%nat /\
    (getIndex row col < WIDTH * HEIGHT)%nat /\
    forall row' col', (row' < HEIGHT)%nat -> (col' < WIDTH)%nat ->
      getIndex row' col' = getIndex row col -> row' = row /\ col' = col.
Proof.
  intros Hr Hw. destruct (FramebufferFacts.reachable_wf fb Hr) as [Hl Hb].
  split; [| split; [exact Hl | split; [exact Hb |]]].
  - unfold uint8_view. rewrite Hw.
    replace (ptr + WIDTH * HEIGHT <=? List.length mem)%nat with true; [reflexivity |].
    symmetry. apply Nat.leb_le.
    rewrite <- Hw, length_firstn, length_skipn in Hl. unfold WIDTH, HEIGHT in *. lia.
  - intros row col Hrow Hcol. unfold getIndex, WIDTH, HEIGHT in *.
    split; [reflexivity | split; [lia |]].
    intros row' col' Hrow' Hcol' Heq. nia.
Qed.

(** A framebuffer after one [DRW] of the sprite byte [0xF0] at column 3,
    row 2, and a wasm memory holding it at offset 2. *)
Definition drawn_fb : list Z := fst (Framebuffer.drw 3 2 [240] Framebuffer.cleared).

Definition drawn_mem : list Z := [7; 7] ++ drawn_fb ++ [5; 5].

Lemma framebuffer_view_layout_witness :
  uint8_view drawn_mem 2 (WIDTH * HEIGHT) = Some drawn_fb /\
  Forall (fun b => b = 0 \/ b = 1) drawn_fb /\
  nth (getIndex 2 3) drawn_fb 0 = 1 /\ nth (getIndex 2 7) drawn_fb 0 = 0.
Proof.
  destruct (framebuffer_view_layout drawn_fb drawn_mem 2) as (V & _ & F & _).
  - apply Framebuffer.reach_drw. apply Framebuffer.reach_cleared.
  - vm_compute. reflexivity.
  - split; [exact V | split; [exact F | split; vm_compute; reflexivity]].
Defined.

(** ** Uploading a program *)

Lemma uint8_array_bytes (b : list Z) : uint8_array b = Some b.
Proof.
  unfold uint8_array, uint8_view. rewrite Nat.leb_refl. simpl. rewrite firstn_all. reflexivity.
Qed.

Section UploadClaims.

Variable Emu : Type.
Variable emu_reset : Emu -> Emu.
Variable emu_load : list Z -> Emu -> Emu.

Lemma pause_fields (el : El Emu) :
  calls Emu (pause Emu el) = calls Emu el /\
  emulator Emu (pause Emu el) = emulator Emu el /\
  reads Emu (pause Emu el) = reads Emu el /\
  started Emu (pause Emu el) = false /\
  (started Emu el = true ->
   animationId Emu (pause Emu el) = None /\
   forall h, animationId Emu el = Some h -> ~ In h (raf_pending Emu (pause Emu el))).
Proof.
  unfold pause. destruct (started Emu el) eqn:S.
  - simpl. repeat split; try reflexivity.
    intros h Hh Hin. rewrite Hh in Hin. apply filter_In in Hin as [_ Hne].
    rewrite Nat.eqb_refl in Hne. discriminate Hne.
  - repeat split; try reflexivity; [exact S | discriminate..].
Qed.

(** C7: selecting a program file resets the interpreter, clears the
    canvas and pauses the loop (the started flag is off and the pending
    frame callback, if the loop was running, is cancelled), then starts a
    read of the file; when that read completes the interpreter is loaded
    with the file's bytes unchanged.  The interpreter calls of the two
    steps together are exactly [reset] followed by [load(file)]. *)
Theorem uploadProgram_reset_then_verbatim_load (file : list Z) (el : El Emu) :
  let el1 := uploadProgram Emu emu_reset file el in
  calls Emu el1 = calls Emu el ++ [CallReset] /\
  emulator Emu el1 = emu_reset (emulator Emu el) /\
  started Emu el1 = false /\
  (started Emu el = true ->
   animationId Emu el1 = None /\
   forall h, animationId Emu el = Some h -> ~ In h (raf_pending Emu el1)) /\
  reads Emu el1 = reads Emu el ++ [file] /\
  exists el2,
    complete_read Emu emu_load (List.length (reads Emu el)) el1 = Some el2 /\
    calls Emu el2 = calls Emu el ++ [CallReset; CallLoad file] /\
    emulator Emu el2 = emu_load file (emu_reset (emulator Emu el)) /\
    programLoaded Emu el2 = true.
Proof.
  cbv zeta.
  set (e2 := draw Emu [ClearRect 0 0 canvas_width canvas_height]
               (emu_call Emu CallReset emu_reset el)).
  destruct (pause_fields e2) as (Hc & He & Hr & Hs & Hp).
  unfold uploadProgram. fold e2. simpl.
  rewrite Hc, He, Hr. simpl.
  split; [reflexivity | split; [reflexivity | split; [exact Hs | split]]].
  - exact Hp.
  - split; [reflexivity |].
    unfold complete_read. simpl.
    rewrite nth_error_app2 by (simpl; lia). rewrite Nat.sub_diag. simpl.
    eexists. split; [reflexivity |].
    unfold reader_onload. rewrite uint8_array_bytes. simpl.
    rewrite <- app_assoc. repeat split.
Qed.

End UploadClaims.

Lemma uploadProgram_reset_then_verbatim_load_witness :
  let el0 := mkEl unit (Some "true"%string) None false (Some 1%nat) tt [] [] 2%nat [1%nat] [] in
  let el1 := uploadProgram unit unit_reset [0; 224] el0 in
  calls unit el1 = [CallReset] /\ animationId unit el1 = None /\ ~ In 1%nat (raf_pending unit el1).
Proof.
  cbv zeta.
  destruct (uploadProgram_reset_then_verbatim_load unit unit_reset unit_load [0; 224]
              (mkEl unit (Some "true"%string) None false (Some 1%nat) tt [] [] 2%nat [1%nat] []))
    as (Hc & _ & _ & Hp & _).
  destruct (Hp eq_refl) as [Ha Hn].
  split; [exact Hc | split; [exact Ha | exact (Hn 1%nat eq_refl)]].
Defined.

(* ================================================================== *)
(** * Further properties of the front end *)

(** ** Scheduling of the frame loop *)

Section SchedulingFacts.

Variable Emu : Type.
Variable emu_tick : Emu -> Emu.
Variable emu_reset : Emu -> Emu.
Variable emu_load : list Z -> Emu -> Emu.
Variable emu_gfx : Emu -> nat.
Variable emu_memory : Emu -> list Z.

Lemma iter_tick_keeps (n : nat) (el : El Emu) :
  started_attr Emu (Nat.iter n (tick Emu emu_tick) el) = started_attr Emu el /\
  tpf_attr Emu (Nat.iter n (tick Emu emu_tick) el) = tpf_attr Emu el /\
  programLoaded Emu (Nat.iter n (tick Emu emu_tick) el) = programLoaded Emu el /\
  reads Emu (Nat.iter n (tick Emu emu_tick) el) = reads Emu el.
Proof.
  induction n as [|n IH]; [repeat split |].
  simpl. destruct IH as (H1 & H2 & H3 & H4). exact (conj H1 (conj H2 (conj H3 H4))).
Qed.

(** [loop] leaves the attributes, the loaded flag and the pending reads. *)
Lemma loop_keeps (fuel : nat) (el el' : El Emu) :
  loop Emu emu_tick emu_gfx emu_memory fuel el = Some el' ->
  started_attr Emu el' = started_attr Emu el /\
  tpf_attr Emu el' = tpf_attr Emu el /\
  programLoaded Emu el' = programLoaded Emu el /\
  reads Emu el' = reads Emu el.
Proof.
  unfold loop.
  destruct (for_ticks Emu emu_tick fuel 0 el) as [el1|] eqn:E1; [| discriminate].
  apply for_ticks_result in E1. subst el1.
  destruct (renderGfx Emu emu_gfx emu_memory _) as [el2|] eqn:E2; [| discriminate].
  apply renderGfx_result in E2. destruct E2 as (gfx & _ & ->).
  intro H. injection H as <-. simpl. apply iter_tick_keeps.
Qed.

Lemma pause_ok (el : El Emu) :
  loop_state_ok Emu el -> raf_pending Emu (pause Emu el) = [] /\ started Emu (pause Emu el) = false.
Proof.
  unfold pause. intros [(S & h & Hp & Ha) | (S & Hp)]; rewrite S.
  - simpl. rewrite Hp, Ha. simpl. rewrite Nat.eqb_refl. split; reflexivity.
  - split; [exact Hp | exact S].
Qed.

Lemma loop_ok (fuel : nat) (el el' : El Emu) :
  loop Emu emu_tick emu_gfx emu_memory fuel el = Some el' ->
  raf_pending Emu el = [] -> started Emu el' = started Emu el /\
  raf_pending Emu el' = [raf_next Emu el] /\ animationId Emu el' = Some (raf_next Emu el).
Proof.
  intros E Hp.
  destruct (loop_result Emu emu_tick emu_gfx emu_memory fuel el el' E) as (_ & _ & Hr & Ha & _).
  destruct (loop_keeps fuel el el' E) as (Hs & _).
  unfold started. rewrite Hs, Hr, Hp. auto.
Qed.

Lemma set_started_ok (b : bool) (el : El Emu) : started Emu (set_started Emu b el) = b.
Proof. destruct b; reflexivity. Qed.

(** X1: every event the page handles keeps the scheduling state: while
    started exactly one frame callback is pending (the one in
    [_animationId]), while paused none is; so the loop never runs twice per
    frame and stops entirely when paused. *)
Theorem dispatch_keeps_loop_state (fuel : nat) (w w' : World Emu) (ev : DomEvent) :
  loop_state_ok Emu (el Emu w) ->
  dispatch Emu emu_tick emu_reset emu_load emu_gfx emu_memory fuel w ev = Some w' ->
  loop_state_ok Emu (el Emu w').
Proof.
  intros Hok H. destruct w as [e k]. simpl in Hok.
  destruct ev as [c|c| |f|i|]; simpl in H.
  - injection H as <-. exact Hok.
  - injection H as <-. exact Hok.
  - destruct (toggle Emu emu_tick emu_gfx emu_memory fuel e) as [e'|] eqn:E; [| discriminate].
    injection H as <-. simpl. unfold toggle in E.
    destruct (started Emu e) eqn:S.
    + injection E as <-. right. destruct (pause_ok e Hok) as [Hp Hs]. auto.
    + unfold start in E. rewrite S in E. simpl in E.
      destruct (loop Emu emu_tick emu_gfx emu_memory fuel e) as [e1|] eqn:L; [| discriminate].
      injection E as <-. left. split; [apply set_started_ok |].
      destruct Hok as [(S' & _) | (_ & Hp)]; [congruence |].
      destruct (loop_ok fuel e e1 L Hp) as (_ & Hr & Ha).
      exists (raf_next Emu e). split; assumption.
  - injection H as <-. simpl. right.
    set (e2 := draw Emu [ClearRect 0 0 canvas_width canvas_height]
                 (emu_call Emu CallReset emu_reset e)).
    assert (Hok2 : loop_state_ok Emu e2) by exact Hok.
    unfold uploadProgram. fold e2.
    destruct (pause_ok e2 Hok2) as [Hp Hs]. split; [exact Hs | exact Hp].
  - destruct (complete_read Emu emu_load i e) as [e'|] eqn:E; [| discriminate].
    injection H as <-. simpl. unfold complete_read in E.
    destruct (nth_error (reads Emu e) i) as [bytes|]; [| discriminate].
    injection E as <-. unfold reader_onload.
    destruct (uint8_array bytes); exact Hok.
  - destruct (animation_frame Emu emu_tick emu_gfx emu_memory fuel e) as [e'|] eqn:E;
      [| discriminate].
    injection H as <-. simpl. unfold animation_frame in E.
    destruct Hok as [(S & h & Hp & Ha) | (S & Hp)]; rewrite Hp in E; simpl in E.
    + destruct (loop Emu emu_tick emu_gfx emu_memory fuel _) as [e1|] eqn:L; [| discriminate].
      injection E as <-. left.
      destruct (loop_ok fuel _ e1 L eq_refl) as (Hs & Hr & Ha').
      split; [rewrite Hs; exact S |]. eexists; split; [exact Hr | exact Ha'].
    + injection E as <-. right. split; [exact S | reflexivity].
Qed.

End SchedulingFacts.

Section FrameFacts.

Variable Emu : Type.
Variable emu_tick : Emu -> Emu.
Variable emu_reset : Emu -> Emu.
Variable emu_load : list Z -> Emu -> Emu.
Variable emu_gfx : Emu -> nat.
Variable emu_memory : Emu -> list Z.

Let dispatchE := dispatch Emu emu_tick emu_reset emu_load emu_gfx emu_memory.
Let framesE := frames Emu emu_tick emu_reset emu_load emu_gfx emu_memory.

Lemma frame_when_started (fuel : nat) (w : World Emu) (h : nat) :
  started Emu (el Emu w) = true -> raf_pending Emu (el Emu w) = [h] ->
  (Z.to_nat (ticksPerFrame (tpf_attr Emu (el Emu w))) < fuel)%nat ->
  (forall e, emu_gfx e + WIDTH * HEIGHT <= List.length (emu_memory e))%nat ->
  exists w',
    dispatchE fuel w DomAnimationFrame = Some w' /\
    calls Emu (el Emu w') =
      calls Emu (el Emu w) ++
      repeat CallTick (Z.to_nat (ticksPerFrame (tpf_attr Emu (el Emu w)))) ++ [CallGfx] /\
    started Emu (el Emu w') = true /\
    raf_pending Emu (el Emu w') = [raf_next Emu (el Emu w)] /\
    animationId Emu (el Emu w') = Some (raf_next Emu (el Emu w)) /\
    tpf_attr Emu (el Emu w') = tpf_attr Emu (el Emu w).
Proof.
  destruct w as [e k]. simpl. intros S Hp Hf Hb.
  unfold dispatchE, dispatch, animation_frame. rewrite Hp. simpl.
  match goal with |- context [loop Emu emu_tick emu_gfx emu_memory fuel ?e0] =>
    set (e0' := e0) end.
  destruct (loop_enough Emu emu_tick emu_gfx emu_memory fuel e0' Hf Hb) as [e1 L].
  rewrite L. simpl. eexists. split; [reflexivity |]. simpl.
  destruct (loop_result Emu emu_tick emu_gfx emu_memory fuel e0' e1 L) as (Hc & _ & Hr & Ha & _).
  destruct (loop_keeps Emu emu_tick emu_gfx emu_memory fuel e0' e1 L) as (Hs & Ht & _).
  split; [exact Hc |]. split; [unfold started; rewrite Hs; exact S |].
  split; [exact Hr | split; [exact Ha | exact Ht]].
Qed.

(** X2: while the loop is started, [k] animation frames (given enough
    fuel and a framebuffer window inside the wasm memory) run the loop
    exactly [k] times: the interpreter sees [k] rounds of
    [max(ticksPerFrame, 0)] ticks each followed by one [gfx()] read, and
    the loop is still started with one frame pending. *)
Theorem frames_while_started (fuel k : nat) (w : World Emu) :
  loop_state_ok Emu (el Emu w) -> started Emu (el Emu w) = true ->
  (Z.to_nat (ticksPerFrame (tpf_attr Emu (el Emu w))) < fuel)%nat ->
  (forall e, emu_gfx e + WIDTH * HEIGHT <= List.length (emu_memory e))%nat ->
  exists w',
    framesE fuel k w = Some w' /\
    calls Emu (el Emu w') =
      calls Emu (el Emu w) ++
      List.concat (repeat (repeat CallTick (Z.to_nat (ticksPerFrame (tpf_attr Emu (el Emu w))))
                      ++ [CallGfx]) k) /\
    started Emu (el Emu w') = true /\ loop_state_ok Emu (el Emu w').
Proof.
  revert w. induction k as [|k IH]; intros w Hok Hs Hf Hb.
  - exists w. simpl. rewrite app_nil_r. auto.
  - destruct Hok as [(_ & h & Hp & _) | (Hs' & _)]; [| congruence].
    destruct (frame_when_started fuel w h Hs Hp Hf Hb)
      as (w1 & D & Hc & S1 & Hp1 & Ha1 & Ht1).
    assert (Hok1 : loop_state_ok Emu (el Emu w1)) by (left; split; [exact S1 | eauto]).
    rewrite <- Ht1 in Hf.
    destruct (IH w1 Hok1 S1 Hf Hb) as (w' & F & Hc' & S' & Hok').
    exists w'.
    change (framesE fuel (S k) w) with
      (match dispatchE fuel w DomAnimationFrame with
       | Some w2 => framesE fuel k w2 | None => None end).
    rewrite D. split; [exact F |]. split; [| auto].
    rewrite Hc', Hc, Ht1. cbn [repeat List.concat]. rewrite <- !app_assoc. reflexivity.
Qed.

(** X3: while the loop is paused, animation frames change nothing: the
    page after [k] frames is the page before. *)
Theorem frames_while_paused (fuel k : nat) (w : World Emu) :
  loop_state_ok Emu (el Emu w) -> started Emu (el Emu w) = false ->
  framesE fuel k w = Some w.
Proof.
  intros Hok S.
  destruct Hok as [(S' & _) | (_ & Hp)]; [congruence |].
  induction k as [|k IH]; [reflexivity |].
  simpl. destruct w as [e kbd]. simpl in Hp.
  unfold dispatch, animation_frame. simpl. rewrite Hp. simpl.
  destruct e. simpl in Hp. subst. exact IH.
Qed.

End FrameFacts.

Section ToggleFacts.

Variable Emu : Type.
Variable emu_tick : Emu -> Emu.
Variable emu_reset : Emu -> Emu.
Variable emu_load : list Z -> Emu -> Emu.
Variable emu_gfx : Emu -> nat.
Variable emu_memory : Emu -> list Z.

Let dispatchE := dispatch Emu emu_tick emu_reset emu_load emu_gfx emu_memory.

(** X4: from a paused page, a click on the start button runs one frame at
    once and starts the loop, whether or not a program has been loaded
    ([_programLoaded] plays no part); a second click pauses it again,
    leaving no frame pending and making no interpreter call. *)
Theorem toggle_starts_then_pauses (fuel : nat) (w : World Emu) :
  loop_state_ok Emu (el Emu w) -> started Emu (el Emu w) = false ->
  (Z.to_nat (ticksPerFrame (tpf_attr Emu (el Emu w))) < fuel)%nat ->
  (forall e, emu_gfx e + WIDTH * HEIGHT <= List.length (emu_memory e))%nat ->
  exists w1,
    dispatchE fuel w DomStartClick = Some w1 /\
    started Emu (el Emu w1) = true /\
    calls Emu (el Emu w1) =
      calls Emu (el Emu w) ++
      repeat CallTick (Z.to_nat (ticksPerFrame (tpf_attr Emu (el Emu w)))) ++ [CallGfx] /\
    raf_pending Emu (el Emu w1) = [raf_next Emu (el Emu w)] /\
    exists w2,
      dispatchE fuel w1 DomStartClick = Some w2 /\
      started Emu (el Emu w2) = false /\
      raf_pending Emu (el Emu w2) = [] /\
      calls Emu (el Emu w2) = calls Emu (el Emu w1).
Proof.
  destruct w as [e k]. simpl. intros Hok Hs Hf Hb.
  destruct Hok as [(Hs' & _) | (_ & Hp)]; [congruence |].
  destruct (loop_enough Emu emu_tick emu_gfx emu_memory fuel e Hf Hb) as [e1 L].
  destruct (loop_result Emu emu_tick emu_gfx emu_memory fuel e e1 L) as (Hc & _ & _ & _ & _).
  destruct (loop_ok Emu emu_tick emu_gfx emu_memory fuel e e1 L Hp) as (_ & Hr & Ha).
  unfold dispatchE, dispatch, toggle, start. rewrite Hs. cbn [negb orb]. rewrite L.
  cbn [option_map]. set (e1' := set_started Emu true e1).
  assert (Hs1 : started Emu e1' = true) by apply set_started_ok.
  assert (Hr1 : raf_pending Emu e1' = [raf_next Emu e]) by exact Hr.
  assert (Hok1 : loop_state_ok Emu e1') by (left; split; [exact Hs1 | exists (raf_next Emu e); split; [exact Hr1 | exact Ha]]).
  eexists. split; [reflexivity |]. cbn [el].
  split; [exact Hs1 | split; [exact Hc | split; [exact Hr1 |]]].
  rewrite Hs1. destruct (pause_ok Emu e1' Hok1) as [Hp2 Hs2].
  destruct (pause_fields Emu e1') as (Hc2 & _).
  eexists. split; [reflexivity |]. cbn [el]. auto.
Qed.

(** X5: selecting a program while the loop runs stops it (no frame stays
    pending), and the completion of the read that follows loads the
    program without restarting the loop: the page stays paused until the
    start button is clicked. *)
Theorem upload_leaves_page_paused (fuel : nat) (w : World Emu) (file : list Z) :
  loop_state_ok Emu (el Emu w) ->
  exists w1 w2,
    dispatchE fuel w (DomFileSelected file) = Some w1 /\
    dispatchE fuel w1 (DomReadDone (List.length (reads Emu (el Emu w)))) = Some w2 /\
    started Emu (el Emu w1) = false /\ raf_pending Emu (el Emu w1) = [] /\
    started Emu (el Emu w2) = false /\ raf_pending Emu (el Emu w2) = [] /\
    programLoaded Emu (el Emu w2) = true.
Proof.
  destruct w as [e k]. simpl. intro Hok.
  set (e2 := draw Emu [ClearRect 0 0 canvas_width canvas_height]
               (emu_call Emu CallReset emu_reset e)).
  assert (Hok2 : loop_state_ok Emu e2) by exact Hok.
  destruct (pause_ok Emu e2 Hok2) as [Hp Hs].
  destruct (pause_fields Emu e2) as (_ & _ & Hr & _).
  unfold dispatchE, dispatch. eexists. eexists. split; [reflexivity |].
  unfold complete_read. simpl. unfold uploadProgram. fold e2. simpl.
  assert (Hr2 : reads Emu e2 = reads Emu e) by reflexivity.
  rewrite Hr, Hr2, nth_error_app2, Nat.sub_diag by lia. simpl.
  split; [reflexivity |].
  unfold reader_onload. rewrite uint8_array_bytes. simpl.
  split; [exact Hs | split; [exact Hp | split; [exact Hs | split; [exact Hp | reflexivity]]]].
Qed.

End ToggleFacts.

(** The page of [unit_world] after one click on the start button. *)
Definition unit_started_world : World unit :=
  match dispatch unit unit_tick unit_reset unit_load unit_gfx unit_memory 11 unit_world DomStartClick with
  | Some w => w
  | None => unit_world
  end.

Lemma dispatch_keeps_loop_state_witness :
  exists w',
    dispatch unit unit_tick unit_reset unit_load unit_gfx unit_memory 11 unit_world DomStartClick = Some w' /\
    loop_state_ok unit (el unit w').
Proof.
  destruct (dispatch unit unit_tick unit_reset unit_load unit_gfx unit_memory 11 unit_world DomStartClick)
    as [w'|] eqn:E; [| vm_compute in E; discriminate E].
  exists w'. split; [reflexivity |].
  apply (dispatch_keeps_loop_state unit unit_tick unit_reset unit_load unit_gfx unit_memory
           11 unit_world w' DomStartClick); [right; split; reflexivity | exact E].
Defined.

Lemma frames_while_started_witness :
  exists w',
    frames unit unit_tick unit_reset unit_load unit_gfx unit_memory 11 2 unit_started_world = Some w' /\
    calls unit (el unit w') =
      calls unit (el unit unit_started_world) ++
      List.concat (repeat (repeat CallTick 10 ++ [CallGfx]) 2).
Proof.
  destruct (frames_while_started unit unit_tick unit_reset unit_load unit_gfx unit_memory
              11 2 unit_started_world) as (w' & F & Hc & _).
  - left. split; [vm_compute; reflexivity | exists 1%nat; split; vm_compute; reflexivity].
  - vm_compute. reflexivity.
  - vm_compute. lia.
  - intros []. vm_compute. lia.
  - exists w'. split; [exact F | exact Hc].
Defined.

Lemma frames_while_paused_witness :
  frames unit unit_tick unit_reset unit_load unit_gfx unit_memory 11 3 unit_world = Some unit_world.
Proof.
  apply (frames_while_paused unit unit_tick unit_reset unit_load unit_gfx unit_memory 11 3 unit_world).
  - right. split; reflexivity.
  - reflexivity.
Defined.

Lemma toggle_starts_then_pauses_witness :
  exists w1,
    dispatch unit unit_tick unit_reset unit_load unit_gfx unit_memory 11 unit_world DomStartClick = Some w1 /\
    started unit (el unit w1) = true.
Proof.
  destruct (toggle_starts_then_pauses unit unit_tick unit_reset unit_load unit_gfx unit_memory
              11 unit_world) as (w1 & D & S1 & _).
  - right. split; reflexivity.
  - reflexivity.
  - vm_compute. lia.
  - intros []. vm_compute. lia.
  - exists w1. split; [exact D | exact S1].
Defined.

Lemma upload_leaves_page_paused_witness :
  exists w1 w2,
    dispatch unit unit_tick unit_reset unit_load unit_gfx unit_memory 11 unit_started_world
      (DomFileSelected [0; 224]) = Some w1 /\
    dispatch unit unit_tick unit_reset unit_load unit_gfx unit_memory 11 w1 (DomReadDone 0) = Some w2 /\
    started unit (el unit w2) = false.
Proof.
  destruct (upload_leaves_page_paused unit unit_tick unit_reset unit_load unit_gfx unit_memory
              11 unit_started_world [0; 224]) as (w1 & w2 & D1 & D2 & _ & _ & S2 & _).
  - left. split; [vm_compute; reflexivity | exists 1%nat; split; vm_compute; reflexivity].
  - exists w1, w2. split; [exact D1 | split; [exact D2 | exact S2]].
Defined.

Section SetterFacts.

Lemma digit_of_digit_char (d : Z) : 0 <= d < 10 -> ParseInt.digit_of (digit_char d) = Some d.
Proof.
  intro H.
  assert (d = 0 \/ d = 1 \/ d = 2 \/ d = 3 \/ d = 4 \/ d = 5 \/ d = 6 \/ d = 7 \/ d = 8 \/ d = 9)
    as Hd by lia.
  repeat destruct Hd as [-> | Hd]; try reflexivity; subst; reflexivity.
Qed.

Lemma digit_char_plain (d : Z) : 0 <= d < 10 ->
  ParseInt.is_ws (digit_char d) = false /\
  Ascii.eqb (digit_char d) "-"%char = false /\ Ascii.eqb (digit_char d) "+"%char = false.
Proof.
  intro H.
  assert (d = 0 \/ d = 1 \/ d = 2 \/ d = 3 \/ d = 4 \/ d = 5 \/ d = 6 \/ d = 7 \/ d = 8 \/ d = 9)
    as Hd by lia.
  repeat destruct Hd as [-> | Hd]; try (vm_compute; auto; fail); subst; vm_compute; auto.
Qed.

Lemma dec_aux_head (f : nat) (n : Z) (acc : string) :
  exists d rest, 0 <= d < 10 /\ dec_aux (S f) n acc = String (digit_char d) rest.
Proof.
  revert n acc. induction f as [|f IH]; intros n acc; cbn [dec_aux].
  - exists (n mod 10), acc. split; [apply Z.mod_pos_bound; lia |].
    destruct (n <? 10); reflexivity.
  - destruct (n <? 10).
    + exists (n mod 10), acc. split; [apply Z.mod_pos_bound; lia | reflexivity].
    + apply IH.
Qed.

Lemma digits_dec_aux (f : nat) (n : Z) (acc : string) (a : option Z) :
  0 <= n < 10 ^ Z.of_nat (S f) ->
  exists k : nat,
    ParseInt.digits a (dec_aux (S f) n acc) =
    ParseInt.digits (Some (match a with Some x => x | None => 0 end * 10 ^ Z.of_nat k + n)) acc.
Proof.
  revert n acc a. induction f as [|f IH]; intros n acc a Hn.
  - assert (Hlt : n < 10) by (simpl in Hn; lia).
    cbn [dec_aux]. rewrite (proj2 (Z.ltb_lt _ _) Hlt). exists 1%nat.
    cbn [ParseInt.digits]. rewrite digit_of_digit_char by (apply Z.mod_pos_bound; lia).
    rewrite Z.mod_small by lia. reflexivity.
  - change (dec_aux (S (S f)) n acc) with
      (if n <? 10 then String (digit_char (n mod 10)) acc
       else dec_aux (S f) (n / 10) (String (digit_char (n mod 10)) acc)).
    destruct (Z.ltb_spec n 10) as [Hlt | Hge].
    + exists 1%nat. cbn [ParseInt.digits].
      rewrite digit_of_digit_char by (apply Z.mod_pos_bound; lia).
      rewrite Z.mod_small by lia. reflexivity.
    + destruct (IH (n / 10) (String (digit_char (n mod 10)) acc) a) as [k Hk].
      { split; [apply Z.div_pos; lia |].
        apply Z.div_lt_upper_bound; [lia |].
        rewrite Nat2Z.inj_succ, Z.pow_succ_r in Hn by lia. lia. }
      exists (S k). rewrite Hk. cbn [ParseInt.digits].
      rewrite digit_of_digit_char by (apply Z.mod_pos_bound; lia).
      f_equal. f_equal. rewrite Nat2Z.inj_succ, Z.pow_succ_r by lia.
      pose proof (Z.div_mod n 10). lia.
Qed.

Lemma dec_string_bound (n : Z) : 0 <= n -> n < 10 ^ Z.of_nat (S (Z.to_nat (Z.log2 n))).
Proof.
  intro Hn. rewrite Nat2Z.inj_succ, Z2Nat.id by apply Z.log2_nonneg.
  destruct (Z.eq_dec n 0) as [-> | Hne]; [reflexivity |].
  destruct (Z.log2_spec n) as [_ Hup]; [lia |].
  apply Z.lt_le_trans with (1 := Hup).
  apply Z.pow_le_mono_l. split; [lia | lia].
Qed.

Lemma parse_dec_string (n : Z) : 0 <= n ->
  ParseInt.digits None (dec_string n) = Some n /\
  exists d rest, 0 <= d < 10 /\ dec_string n = String (digit_char d) rest.
Proof.
  intro Hn. unfold dec_string. split.
  - destruct (digits_dec_aux (Z.to_nat (Z.log2 n)) n EmptyString None) as [k Hk].
    + split; [exact Hn | apply dec_string_bound; exact Hn].
    + rewrite Hk. reflexivity.
  - apply dec_aux_head.
Qed.

Lemma parseInt10_js_int_string (n : Z) :
  ParseInt.parseInt10 (js_int_string n) = Some n.
Proof.
  unfold js_int_string. destruct (Z.ltb_spec n 0) as [Hneg | Hpos].
  - destruct (parse_dec_string (- n)) as [Hp _]; [lia |].
    unfold ParseInt.parseInt10. cbn [ParseInt.trim_start].
    replace (ParseInt.is_ws "-"%char) with false by reflexivity.
    replace (Ascii.eqb "-"%char "-"%char) with true by reflexivity.
    rewrite Hp. cbn [option_map]. f_equal. lia.
  - destruct (parse_dec_string n Hpos) as [Hp (d & rest & Hd & Hs)].
    destruct (digit_char_plain d Hd) as (Hw & Hm & Hpl).
    unfold ParseInt.parseInt10. rewrite Hs. cbn [ParseInt.trim_start].
    rewrite Hw, Hm, Hpl, <- Hs. exact Hp.
Qed.

Variable Emu : Type.

(** X7: writing an integer to the [ticksPerFrame] setter and reading the
    getter back gives that integer, except [0], which reads back as the
    default [10].  The hypothesis is the range the embedding covers: a
    safe integer is an exact Number and [String] writes it in plain
    decimal digits.  Negative values survive the round trip (and make the
    loop tick zero times). *)
Theorem ticksPerFrame_set_get (n : Z) (el : El Emu) :
  Z.abs n <= 2 ^ 53 ->
  ticksPerFrame (tpf_attr Emu (set_ticksPerFrame Emu n el)) = if Z.eqb n 0 then 10 else n.
Proof.
  intros _. unfold ticksPerFrame. cbn [tpf_attr set_ticksPerFrame ParseInt.to_string].
  rewrite parseInt10_js_int_string. unfold ParseInt.truthy.
  destruct (Z.eqb n 0); reflexivity.
Qed.

End SetterFacts.

Lemma ticksPerFrame_set_get_witness :
  ticksPerFrame (tpf_attr unit (set_ticksPerFrame unit (-37) (unit_el None))) = -37 /\
  ticksPerFrame (tpf_attr unit (set_ticksPerFrame unit 0 (unit_el None))) = 10.
Proof.
  split.
  - apply (ticksPerFrame_set_get unit (-37) (unit_el None)). vm_compute. discriminate.
  - apply (ticksPerFrame_set_get unit 0 (unit_el None)). vm_compute. discriminate.
Defined.

Section CanvasFacts.

Lemma grid_cells_bounded (cond : nat -> nat -> bool) (x : CanvasOp) :
  In x (RenderFacts.grid cond) ->
  exists r c, (r < HEIGHT)%nat /\ (c < WIDTH)%nat /\ x = cell_rect r c.
Proof.
  unfold RenderFacts.grid. rewrite in_flat_map. intros (r & Hr & Hx).
  rewrite in_flat_map in Hx. destruct Hx as (c & Hc & Hx).
  apply in_seq in Hr, Hc.
  destruct (cond r c); [destruct Hx | destruct Hx as [<- | []]].
  exists r, c. repeat split; lia.
Qed.

Lemma cell_pixel (k p : nat) :
  (k * (SCALE + 1) + 1 <= p < k * (SCALE + 1) + 1 + SCALE)%nat ->
  (p / (SCALE + 1) = k /\ p mod (SCALE + 1) <> 0)%nat.
Proof.
  unfold SCALE. change (10 + 1)%nat with 11%nat. intro H.
  assert (Hd : (p / 11 = k)%nat).
  { symmetry. apply Nat.div_unique with (r := (p - k * 11)%nat); lia. }
  split; [exact Hd |].
  pose proof (Nat.div_mod_eq p 11) as Hm. rewrite Hd in Hm. lia.
Qed.

(** X8: every rectangle [renderGfx] fills is the [SCALE] by [SCALE]
    square of one cell of the 64 by 32 grid, inside the canvas
    [(SCALE + 1) * WIDTH + 1] by [(SCALE + 1) * HEIGHT + 1]; each of its
    pixels lies in its own cell's column and row band and never on a
    grid line (a multiple of [SCALE + 1]), so rectangles of distinct cells
    never overlap and the lines between cells keep the background. *)
Theorem render_ops_rects_on_grid (gfx : list Z) (x y w h : nat) :
  In (FillRect x y w h) (render_ops gfx) ->
  exists row col,
    (row < HEIGHT)%nat /\ (col < WIDTH)%nat /\ FillRect x y w h = cell_rect row col /\
    (x + w < canvas_width)%nat /\ (y + h < canvas_height)%nat /\
    forall px py, (x <= px < x + w)%nat -> (y <= py < y + h)%nat ->
      (px / (SCALE + 1) = col /\ py / (SCALE + 1) = row /\
       px mod (SCALE + 1) <> 0 /\ py mod (SCALE + 1) <> 0)%nat.
Proof.
  unfold render_ops, renderFilledCells, renderEmptyCells.
  rewrite !RenderFacts.renderCellsByCond_grid. intro Hin.
  assert (Hg : exists cond, In (FillRect x y w h) (RenderFacts.grid cond)).
  { simpl in Hin. destruct Hin as [Hin | [Hin | Hin]]; [discriminate | discriminate |].
    apply in_app_or in Hin. destruct Hin as [Hin | [Hin | Hin]];
      [eauto | discriminate | ].
    apply in_app_or in Hin. destruct Hin as [Hin | [Hin | []]]; [eauto | discriminate]. }
  destruct Hg as [cond Hg].
  destruct (grid_cells_bounded cond _ Hg) as (r & c & Hr & Hc & E).
  exists r, c. split; [exact Hr | split; [exact Hc | split; [exact E |]]].
  unfold cell_rect in E. injection E as -> -> -> ->.
  unfold canvas_width, canvas_height, WIDTH, HEIGHT in *.
  split; [unfold SCALE; lia | split; [unfold SCALE; lia |]].
  intros px py Hpx Hpy.
  destruct (cell_pixel c px Hpx), (cell_pixel r py Hpy). auto.
Qed.

End CanvasFacts.

Lemma render_ops_rects_on_grid_witness :
  exists row col, FillRect 1 1 10 10 = cell_rect row col.
Proof.
  destruct (render_ops_rects_on_grid (repeat 0 (WIDTH * HEIGHT)) 1 1 10 10)
    as (row & col & _ & _ & E & _).
  - vm_compute. right. right. right. left. reflexivity.
  - exists row, col. exact E.
Defined.

Section ListenerFacts.

(** One attach ([true]) or detach ([false]) of an element. *)
Definition chip8_life (ls : list Listener) (attached : bool) : list Listener :=
  if attached then chip8_connected ls else chip8_disconnected ls.

Definition upload_life (ls : list Listener) (attached : bool) : list Listener :=
  if attached then upload_connected ls else upload_disconnected ls.

Lemma chip8_life_closed (h : list bool) :
  fold_left chip8_life h [] = [] \/
  fold_left chip8_life h [] = [toggle_listener; upload_listener].
Proof.
  induction h as [|b h IH] using rev_ind; [left; reflexivity |].
  rewrite fold_left_app. cbn [fold_left].
  destruct IH as [-> | ->]; destruct b; [right | left | right | left]; reflexivity.
Qed.

Lemma upload_life_closed (h : list bool) :
  fold_left upload_life h [] = [] \/
  fold_left upload_life h [] = [click_listener; change_listener].
Proof.
  induction h as [|b h IH] using rev_ind; [left; reflexivity |].
  rewrite fold_left_app. cbn [fold_left].
  destruct IH as [-> | ->]; destruct b; [right | left | right | left]; reflexivity.
Qed.

(** X9: however often the two custom elements are attached to and
    detached from the document, their listeners depend only on the last
    step: once attached, a click on the start button runs [toggle] once,
    a [file-selected] event runs [uploadProgram] once, a click on
    upload-button runs [handleClick] once and a [change] of its file input
    runs [handleFileSelected] once (re-attaching adds no duplicate, the
    handlers being bound once in the constructors); once detached, none
    of them is registered. *)
Theorem listeners_follow_last_attachment (h : list bool) (b : bool) :
  fold_left chip8_life (h ++ [b]) [] =
    (if b then [toggle_listener; upload_listener] else []) /\
  handlers_for (fold_left chip8_life (h ++ [b]) []) StartBtn "click" =
    (if b then [HToggle] else []) /\
  handlers_for (fold_left chip8_life (h ++ [b]) []) UploadBtnEl "file-selected" =
    (if b then [HUploadProgram] else []) /\
  fold_left upload_life (h ++ [b]) [] =
    (if b then [click_listener; change_listener] else []) /\
  handlers_for (fold_left upload_life (h ++ [b]) []) UploadHost "click" =
    (if b then [HHandleClick] else []) /\
  handlers_for (fold_left upload_life (h ++ [b]) []) FileInput "change" =
    (if b then [HHandleFileSelected] else []).
Proof.
  rewrite !fold_left_app. cbn [fold_left].
  destruct (chip8_life_closed h) as [-> | ->], (upload_life_closed h) as [-> | ->];
    destruct b; repeat split.
Qed.

End ListenerFacts.

Section AudioSounding.
Import Audio.

Lemma sounding_app (es es' : list Effect) :
  sounding (es ++ es') = fold_left osc_step es' (sounding es).
Proof. unfold sounding. apply fold_left_app. Qed.

(** X10: whatever sequence of [start] and [stop] calls the [Audio] class
    receives, at most one oscillator is sounding: the one held in [this.o]
    while there is one, none after [stop]; [start] while a tone sounds
    creates no second oscillator. *)
Theorem audio_one_tone_at_most (cs : list Call) :
  sounding (effects (run create cs)) =
    match o (run create cs) with Some x => [x] | None => [] end.
Proof.
  unfold run. induction cs as [|c cs IH] using rev_ind; [reflexivity |].
  rewrite fold_left_app. cbn [fold_left].
  set (a := fold_left call cs create) in *.
  destruct c; cbn [call].
  - unfold start, is_active. destruct (o a) as [x|] eqn:E; cbn [negb].
    + rewrite IH, E. reflexivity.
    + cbn [effects o]. rewrite sounding_app, IH. reflexivity.
  - unfold stop, is_active. destruct (o a) as [x|] eqn:E.
    + cbn [effects o]. rewrite sounding_app, IH. cbn.
      rewrite Nat.eqb_refl. reflexivity.
    + rewrite IH, E. reflexivity.
Qed.

End AudioSounding.

(** X11: the key map is one-to-one: distinct keyCodes never stand for the
    same logical key, and every key 0x1–0xF has a keyCode. *)
Theorem KEYS_MAP_one_to_one :
  (forall a b k, KEYS_MAP a = Some k -> KEYS_MAP b = Some k -> a = b) /\
  (forall k, 1 <= k <= 15 -> exists kc, KEYS_MAP kc = Some k).
Proof.
  split.
  - intros a b k Ha Hb.
    pose proof (KEYS_MAP_in_table a k Ha) as Ia.
    pose proof (KEYS_MAP_in_table b k Hb) as Ib.
    unfold KEYS_MAP_keys in Ia, Ib. simpl in Ia, Ib.
    repeat destruct Ia as [<- | Ia]; repeat destruct Ib as [<- | Ib];
      try contradiction; simpl in Ha, Hb; congruence.
  - intros k Hk.
    assert (k = 1 \/ k = 2 \/ k = 3 \/ k = 4 \/ k = 5 \/ k = 6 \/ k = 7 \/ k = 8 \/
            k = 9 \/ k = 10 \/ k = 11 \/ k = 12 \/ k = 13 \/ k = 14 \/ k = 15) as Hd by lia.
    repeat destruct Hd as [-> | Hd];
      first [exists 49; reflexivity | exists 50; reflexivity | exists 51; reflexivity
            | exists 81; reflexivity | exists 87; reflexivity | exists 69; reflexivity
            | exists 65; reflexivity | exists 83; reflexivity | exists 68; reflexivity
            | exists 90; reflexivity | exists 67; reflexivity | exists 52; reflexivity
            | exists 82; reflexivity | exists 70; reflexivity | subst; exists 86; reflexivity].
Qed.

Section LenientAttribute.

(** Whether a string does not begin with a decimal digit. *)
Definition starts_without_digit (s : string) : bool :=
  match s with
  | String c _ => match ParseInt.digit_of c with Some _ => false | None => true end
  | EmptyString => true
  end.

Lemma dec_aux_app (f : nat) (n : Z) (acc suffix : string) :
  (dec_aux f n acc ++ suffix)%string = dec_aux f n (acc ++ suffix).
Proof.
  revert n acc. induction f as [|f IH]; intros n acc; [reflexivity |].
  cbn [dec_aux]. destruct (n <? 10); [reflexivity | apply IH].
Qed.

Lemma trim_start_ws (ws s : string) :
  forallb ParseInt.is_ws (list_ascii_of_string ws) = true ->
  ParseInt.trim_start (ws ++ s)%string = ParseInt.trim_start s.
Proof.
  induction ws as [|c ws IH]; [reflexivity |].
  cbn [list_ascii_of_string forallb append ParseInt.trim_start].
  intro H. apply andb_prop in H as [Hc Hw]. rewrite Hc. apply IH. exact Hw.
Qed.

Lemma digits_dec_string_app (n : Z) (suffix : string) :
  0 <= n -> starts_without_digit suffix = true ->
  ParseInt.digits None (dec_string n ++ suffix)%string = Some n.
Proof.
  intros Hn Hs. unfold dec_string. rewrite dec_aux_app.
  destruct (digits_dec_aux (Z.to_nat (Z.log2 n)) n (EmptyString ++ suffix) None) as [k Hk].
  - split; [exact Hn | apply dec_string_bound; exact Hn].
  - rewrite Hk. cbn [append]. destruct suffix as [|c rest]; [reflexivity |].
    cbn [ParseInt.digits]. cbn [starts_without_digit] in Hs.
    destruct (ParseInt.digit_of c); [discriminate Hs | reflexivity].
Qed.

(** X12: the [ticks-per-frame] attribute is read leniently: white space
    before the number and any text after it that does not start with a
    digit (["  12px"]) are ignored, so such an attribute reads as its
    number, [0] again giving the default [10]. *)
Theorem ticksPerFrame_lenient (ws suffix : string) (n : Z) :
  forallb ParseInt.is_ws (list_ascii_of_string ws) = true ->
  starts_without_digit suffix = true ->
  Z.abs n <= 2 ^ 53 ->
  ticksPerFrame (Some (ws ++ js_int_string n ++ suffix)%string) = if Z.eqb n 0 then 10 else n.
Proof.
  intros Hws Hs _. unfold ticksPerFrame, ParseInt.to_string, ParseInt.parseInt10.
  rewrite trim_start_ws by exact Hws.
  assert (Hp : ParseInt.parseInt10 (js_int_string n ++ suffix)%string = Some n).
  { unfold js_int_string. destruct (Z.ltb_spec n 0) as [Hneg | Hpos].
    - unfold ParseInt.parseInt10. cbn [append ParseInt.trim_start].
      replace (ParseInt.is_ws "-"%char) with false by reflexivity.
      replace (Ascii.eqb "-"%char "-"%char) with true by reflexivity.
      rewrite digits_dec_string_app by (lia || exact Hs). cbn [option_map]. f_equal. lia.
    - destruct (parse_dec_string n Hpos) as [_ (d & rest & Hd & Hstr)].
      destruct (digit_char_plain d Hd) as (Hw & Hm & Hpl).
      unfold ParseInt.parseInt10.
      pose proof (digits_dec_string_app n suffix Hpos Hs) as Hg.
      rewrite Hstr in Hg |- *. cbn [append ParseInt.trim_start] in Hg |- *.
      rewrite Hw, Hm, Hpl. exact Hg. }
  unfold ParseInt.parseInt10 in Hp. rewrite Hp. unfold ParseInt.truthy.
  destruct (Z.eqb n 0); reflexivity.
Qed.

End LenientAttribute.

Lemma ticksPerFrame_lenient_witness :
  ticksPerFrame (Some ("  " ++ js_int_string 12 ++ "px"))%string = 12.
Proof.
  apply (ticksPerFrame_lenient "  " "px" 12); vm_compute; first [reflexivity | discriminate].
Defined.
